(** * SCARA kinematics of grblHAL ([scara.c]): a shallow embedding

    The C file implements the kinematics plug-in of a two-link planar arm:
    forward and inverse kinematics ([q_to_xy], [xy_to_q]), the wrappers
    the planner calls ([scara_transform_to_cartesian],
    [scara_transform_from_cartesian]), the line segmenter
    ([scara_segment_line]) with its file-level statics, and the homing
    helpers ([scara_limits_set_target_pos],
    [scara_limits_set_machine_positions]).

    The embedding is written once, over an interface [Arith] that names
    the arithmetic the C text uses (the [float] operations and the libm
    calls), so that what depends only on the control flow is proved for
    every arithmetic.  The arithmetic of the program is [B32]: IEEE-754
    binary32 with round-to-nearest-even, built on the standard library's
    [SpecFloat]; libm's [cosf], [sinf], [acosf] and [atan2f] stay a
    parameter ([B32.Libm]), and [RefLibm] is one instance of it, used
    for the concrete runs.

    Debug output ([snprintf] / [hal.stream.write]) has no effect on any
    value computed and is left out. *)

From Stdlib Require Import ZArith Lia Bool List.
From Stdlib Require Import Floats.SpecFloat.
From stdpp Require Import base list.

Set Default Proof Using "Type".
Local Open Scope Z_scope.

(** ** The arithmetic interface *)

Class Arith := {
  F : Type;
  NAN : F;
  isnan : F -> bool;
  fadd : F -> F -> F;
  fsub : F -> F -> F;
  fmul : F -> F -> F;
  fdiv : F -> F -> F;
  fneg : F -> F;
  (** [fgt a b] is the C comparison [a > b]; false when either is NaN. *)
  fgt : F -> F -> bool;
  (** conversion of an integer to [float]: literals, [(float)n]. *)
  of_int : Z -> F;
  (** conversion of a [float] to an integer type, before the wrap to
      the type's width: truncation toward zero. *)
  ftrunc : F -> Z;
  (** [RADDEG] (radians per degree) and [DEGRAD] (degrees per radian)
      are macros of nuts_bolts.h. *)
  RADDEG : F;
  DEGRAD : F;
  sqrtf : F -> F;
  ceilf : F -> F;
  lroundf : F -> Z;
  cosf : F -> F;
  sinf : F -> F;
  acosf : F -> F;
  atan2f : F -> F -> F;
}.

(** Build-time configuration that lives outside [scara.c]: the number of
    axes (grbl.h; at least 3, the file reads [delta.z]) and the width of
    [uint_fast16_t]. *)
Class Build := {
  N_AXIS : nat;
  UINT_FAST16_BITS : Z;
}.

(** A [float[N_AXIS]] buffer ([coord_data_t] is a union of such an
    array with the fields [x], [y], [z]). *)
Abbreviation vec := (list F).

#[global] Instance F_inhabited {A : Arith} : Inhabited F := populate NAN.

Declare Scope flt_scope.
Delimit Scope flt_scope with flt.
Infix "+" := fadd : flt_scope.
Infix "-" := fsub : flt_scope.
Infix "*" := fmul : flt_scope.
Infix "/" := fdiv : flt_scope.
Notation "- x" := (fneg x) : flt_scope.

(** Axis indices (nuts_bolts.h) and the motor assignment of [scara.c]. *)
Definition X_AXIS : nat := 0.
Definition Y_AXIS : nat := 1.
Definition A_MOTOR : nat := X_AXIS.
Definition B_MOTOR : nat := Y_AXIS.

(** Unsigned and signed wrap-around of the C integer types. *)
Definition wrap_unsigned (bits z : Z) : Z := z mod 2 ^ bits.
Definition wrap_int32 (z : Z) : Z := (z + 2 ^ 31) mod 2 ^ 32 - 2 ^ 31.

(** [alarm_code_t]: the one alarm this file raises. *)
Inductive alarm_code := Alarm_SoftLimit.

Section Scara.
Context {A : Arith} {B : Build}.
Local Open Scope flt_scope.


Definition MAX_SEG_LENGTH_MM : F := of_int 2.
Definition SCARA_L1 : F := of_int 500.
Definition SCARA_L2 : F := of_int 450.

Record xy_t := { x : F; y : F }.
Record q_t := { q1 : F; q2 : F }.
Record machine_t := { l1 : F; l2 : F }.

(** The static [machine] as [scara_init] leaves it. *)
Definition machine : machine_t := {| l1 := SCARA_L1; l2 := SCARA_L2 |}.

(** *** Kinematics calculations *)

Definition q_to_xy (q1 q2 : F) : xy_t :=
  {| x := l1 machine * cosf (q1 * RADDEG) + l2 machine * cosf (q2 * RADDEG);
     y := l1 machine * sinf (q1 * RADDEG) + l2 machine * sinf (q2 * RADDEG) |}.

(** The law-of-cosines ratio [cos_q12] of [xy_to_q], named for the
    statements below. *)
Definition r_sq_of (x y : F) : F := x * x + y * y.
Definition cos_q12_of (r_sq : F) : F :=
  (r_sq - l1 machine * l1 machine - l2 machine * l2 machine)
  / (of_int 2 * l1 machine * l2 machine).

(** [SCARA_ELBOW_UP] and [SCARA_ABSOLUTE_JOINT_ANGLES] are both [On]:
    the [#if] branches taken are the ones written here. *)
Definition xy_to_q (x y : F) : q_t :=
  let r_sq := r_sq_of x y in
  if fgt r_sq ((l1 machine + l2 machine) * (l1 machine + l2 machine)) then
    {| q1 := NAN; q2 := NAN |}
  else
    let cos_q12 := cos_q12_of r_sq in
    let q12 := acosf cos_q12 in
    let beta := atan2f (l2 machine * sinf q12) (l1 machine + l2 machine * cos_q12) in
    let q1 := atan2f y x + beta in
    let q12 := - q12 in
    let q2 := q1 + q12 in
    {| q1 := q1 * DEGRAD; q2 := q2 * DEGRAD |}.

(** *** Loops over the axes

    [do { body(idx); idx--; } while (idx > Y_AXIS)] started at [idx]:
    the copy of the pass-through axes in both transform wrappers. *)
Fixpoint copy_higher (idx : nat) (dst src : vec) : vec :=
  let dst := <[idx := src !!! idx]> dst in
  match idx with
  | S idx' => if (Y_AXIS <? idx')%nat then copy_higher idx' dst src else dst
  | O => dst
  end.

(** [idx = n; do { idx--; body(idx); } while (idx)], for [n >= 1]. *)
Fixpoint for_each_axis_down {S : Type} (n : nat) (body : nat -> S -> S) (s : S) : S :=
  match n with
  | O => s
  | Datatypes.S idx => for_each_axis_down idx body (body idx s)
  end.

(** *** The wrappers required by the kinematics API *)

Definition scara_transform_to_cartesian (coords angles : vec) : vec :=
  let coords := copy_higher (N_AXIS - 1) coords angles in
  let xy := q_to_xy (angles !!! A_MOTOR) (angles !!! B_MOTOR) in
  let coords := <[X_AXIS := x xy]> coords in
  <[Y_AXIS := y xy]> coords.

(** What [scara_transform_from_cartesian] leaves behind: the contents
    of the caller's buffer [target_q], whether it returned that buffer
    or [NULL], and whether [system_raise_alarm(Alarm_SoftLimit)] was
    called. *)
Record from_cartesian_result := {
  buffer : vec;
  returned_null : bool;
  raised : list alarm_code;
}.

Definition scara_transform_from_cartesian (target_q position_xy : vec)
  : from_cartesian_result :=
  let target_q := copy_higher (N_AXIS - 1) target_q position_xy in
  let q := xy_to_q (position_xy !!! A_MOTOR) (position_xy !!! B_MOTOR) in
  if isnan (q1 q) || isnan (q2 q) then
    {| buffer := target_q; returned_null := true; raised := [Alarm_SoftLimit] |}
  else
    let target_q := <[A_MOTOR := q1 q]> target_q in
    let target_q := <[B_MOTOR := q2 q]> target_q in
    {| buffer := target_q; returned_null := false; raised := [] |}.

(** *** The line segmenter

    The function-level statics of [scara_segment_line], the file-level
    [jog_cancel], and the alarms raised so far (latest first). *)
Record statics := {
  jog_cancel : bool;
  do_segments : bool;
  iterations : Z;
  delta : vec;
  segment_target : vec;
  current_position : vec;
  final_target : vec;
  alarms : list alarm_code;
}.

(** [(uint_fast16_t)f]: defined by C only when the truncated value fits;
    the wrap-around written here is what the model does otherwise. *)
Definition to_uint_fast16 (f : F) : Z := wrap_unsigned UINT_FAST16_BITS (ftrunc f).

(** The [init] branch: everything up to and including [iterations++]. *)
Definition segment_line_init (target position : vec) (rapid_motion : bool)
  (s : statics) : statics :=
  (* resume motion *)
  let jog_cancel := false in
  (* save final target *)
  let final_target := target in
  (* get current position in cartesian coordinates *)
  let current_position := scara_transform_to_cartesian (current_position s) position in
  (* calculate total delta *)
  let delta :=
    for_each_axis_down N_AXIS
      (fun idx d => <[idx := target !!! idx - current_position !!! idx]> d)
      (delta s) in
  (* check if segmentation needed *)
  let distance :=
    sqrtf (delta !!! X_AXIS * delta !!! X_AXIS + delta !!! Y_AXIS * delta !!! Y_AXIS) in
  let do_segments := negb rapid_motion && fgt distance MAX_SEG_LENGTH_MM in
  (* calculate amount of segments and delta step size *)
  let '(iterations, delta, segment_target) :=
    if do_segments then
      let iterations := to_uint_fast16 (ceilf (distance / MAX_SEG_LENGTH_MM)) in
      let delta :=
        for_each_axis_down N_AXIS
          (fun idx d => <[idx := d !!! idx / of_int iterations]> d) delta in
      (* save current position as initial segment target *)
      (iterations, delta, current_position)
    else
      (* no segmentation needed: segment target matches final target *)
      (1%Z, delta, final_target) in
  (* ensure at least 1 iteration *)
  let iterations := wrap_unsigned UINT_FAST16_BITS (iterations + 1) in
  {| jog_cancel := jog_cancel; do_segments := do_segments;
     iterations := iterations; delta := delta;
     segment_target := segment_target; current_position := current_position;
     final_target := final_target; alarms := alarms s |}.

(** The [else] branch: return next segment. *)
Definition segment_line_advance (s : statics) : statics :=
  let iterations := wrap_unsigned UINT_FAST16_BITS (iterations s - 1) in
  let segment_target :=
    if do_segments s && (1 <? iterations)%Z then
      (* increment segment target for all axes *)
      for_each_axis_down N_AXIS
        (fun idx t => <[idx := t !!! idx + delta s !!! idx]> t) (segment_target s)
    else
      (* last segment: segment target matches final target *)
      final_target s in
  {| jog_cancel := jog_cancel s; do_segments := do_segments s;
     iterations := iterations; delta := delta s;
     segment_target := segment_target; current_position := current_position s;
     final_target := final_target s; alarms := alarms s |}.

(** [scara_segment_line(target, position, plan_data, init)].  Only
    [plan_data->condition.rapid_motion] is read from [plan_data].  The
    result is the returned pointer: [None] for [NULL], [Some v] for
    [current_position.values] with [v] its contents at the return.  The
    value [scara_transform_from_cartesian] returns is not looked at, as in
    the C text. *)
Definition scara_segment_line (target position : vec) (rapid_motion : bool)
  (init : bool) (s : statics) : option vec * statics :=
  let s := if init then segment_line_init target position rapid_motion s
           else segment_line_advance s in
  (* convert to joint angles *)
  let r := scara_transform_from_cartesian (current_position s) (segment_target s) in
  let s :=
    {| jog_cancel := jog_cancel s; do_segments := do_segments s;
       iterations := iterations s; delta := delta s;
       segment_target := segment_target s; current_position := buffer r;
       final_target := final_target s; alarms := raised r ++ alarms s |} in
  if (iterations s =? 0)%Z || jog_cancel s then (None, s)
  else (Some (current_position s), s).

(** [cancel_jog]: the [grbl.on_jog_cancel] handler. *)
Definition cancel_jog (s : statics) : statics :=
  {| jog_cancel := true; do_segments := do_segments s;
     iterations := iterations s; delta := delta s;
     segment_target := segment_target s; current_position := current_position s;
     final_target := final_target s; alarms := alarms s |}.

(** A session as the planner drives it: one call with [init], then
    calls without.  [next] is such a later call; its pointer arguments
    are not read. *)
Definition next (s : statics) : option vec * statics :=
  scara_segment_line [] [] false false s.

(** [run_next n s]: the results of [n] successive [next] calls from [s],
    in call order, and the state they leave. *)
Fixpoint run_next (n : nat) (s : statics) : list (option vec) * statics :=
  match n with
  | O => ([], s)
  | S n' =>
      let '(r, s1) := next s in
      let '(rs, s2) := run_next n' s1 in
      (r :: rs, s2)
  end.

(** Static storage is zero-initialised: the state before the first call. *)
Definition statics_zero : statics :=
  {| jog_cancel := false; do_segments := false; iterations := 0%Z;
     delta := replicate N_AXIS (of_int 0);
     segment_target := replicate N_AXIS (of_int 0);
     current_position := replicate N_AXIS (of_int 0);
     final_target := replicate N_AXIS (of_int 0);
     alarms := [] |}.

(** *** Readings of the [init] branch

    The planar distance [init] computes, its segmentation decision and
    the value of [iterations] just before [iterations++], named so that
    statements can refer to them. *)
Definition init_current_position (position : vec) (s : statics) : vec :=
  scara_transform_to_cartesian (current_position s) position.

Definition init_total_delta (target position : vec) (s : statics) : vec :=
  for_each_axis_down N_AXIS
    (fun idx d => <[idx := target !!! idx - init_current_position position s !!! idx]> d)
    (delta s).

Definition init_distance (target position : vec) (s : statics) : F :=
  let delta := init_total_delta target position s in
  sqrtf (delta !!! X_AXIS * delta !!! X_AXIS + delta !!! Y_AXIS * delta !!! Y_AXIS).

Definition init_do_segments (target position : vec) (rapid_motion : bool)
  (s : statics) : bool :=
  negb rapid_motion && fgt (init_distance target position s) MAX_SEG_LENGTH_MM.

Definition init_count (target position : vec) (rapid_motion : bool)
  (s : statics) : Z :=
  if init_do_segments target position rapid_motion s then
    to_uint_fast16 (ceilf (init_distance target position s / MAX_SEG_LENGTH_MM))
  else 1%Z.

(** What the planner sees of a session that yields exactly [n] real
    segments from state [s]: [n] calls return a waypoint, the next one
    returns the termination signal. *)
Definition yields_segments (n : nat) (s : statics) : Prop :=
  let rs := fst (run_next (S n) s) in
  (forall i, (i < n)%nat -> exists v, rs !! i = Some (Some v)) /\
  rs !! n = Some None.

(** [InverseTransform] signals Unreachable: the test the wrapper makes. *)
Definition unreachable (x y : F) : bool :=
  let q := xy_to_q x y in isnan (q1 q) || isnan (q2 q).

(** *** Homing helpers

    The parts of [settings] and [sys] the helpers read and write:
    [settings.axis[idx]], [settings.homing] and [sys.position] (steps,
    [int32_t]). *)
Record axis_settings := { steps_per_mm : F; max_travel : F }.
Record homing_settings := {
  force_set_origin : bool;
  dir_mask : Z;
  homing_pulloff : F; (* [settings.homing.pulloff] *)
}.
Record settings_t := { axis : list axis_settings; homing : homing_settings }.

#[global] Instance axis_settings_inhabited : Inhabited axis_settings :=
  populate {| steps_per_mm := NAN; max_travel := NAN |}.

(** Assignment of a [float] expression to an [int32_t]: truncation, then
    the wrap to 32 bits where C leaves the result undefined. *)
Definition to_int32 (f : F) : Z := wrap_int32 (ftrunc f).

(** [bit(n)] and the test [mask & bit(n)]. *)
Definition bit (n : nat) : Z := Z.shiftl 1 (Z.of_nat n).
Definition bit_istrue (mask : Z) (b : Z) : bool := negb (Z.land mask b =? 0)%Z.

Definition scara_limits_get_axis_mask (idx : nat) : Z := bit idx.

(** [xy] as both helpers compute it on entry. *)
Definition steps_xy (settings : settings_t) (position : list Z) : xy_t :=
  {| x := of_int (position !!! X_AXIS) / steps_per_mm (axis settings !!! A_MOTOR);
     y := of_int (position !!! Y_AXIS) / steps_per_mm (axis settings !!! B_MOTOR) |}.

(** [scara_limits_set_target_pos(idx)], on [sys.position]. *)
Definition scara_limits_set_target_pos (settings : settings_t) (idx : nat)
  (position : list Z) : list Z :=
  let xy := steps_xy settings position in
  let q := xy_to_q (x xy) (y xy) in
  match idx with
  | 0%nat (* X_AXIS *) =>
      <[A_MOTOR := to_int32 (q1 q * steps_per_mm (axis settings !!! A_MOTOR))]> position
  | 1%nat (* Y_AXIS *) =>
      <[B_MOTOR := to_int32 (q2 q * steps_per_mm (axis settings !!! B_MOTOR))]> position
  | _ => <[idx := 0%Z]> position
  end.

(** The [do { ... } while (idx)] of [scara_limits_set_machine_positions],
    entered with [idx] as the guard's [--idx] left it.  [pulloff] is an
    [int32_t] that keeps its value across iterations when
    [force_set_origin] is off. *)
Fixpoint machine_positions_loop (settings : settings_t) (xy : xy_t) (idx : nat)
  (pulloff : Z) (position : list Z) : list Z :=
  let pulloff :=
    if force_set_origin (homing settings) then
      if bit_istrue (dir_mask (homing settings)) (bit idx) then
        wrap_int32 (lroundf ((max_travel (axis settings !!! idx) + homing_pulloff (homing settings))
                             * steps_per_mm (axis settings !!! idx)))
      else
        wrap_int32 (lroundf (- homing_pulloff (homing settings)
                             * steps_per_mm (axis settings !!! idx)))
    else pulloff in
  match idx with
  | O => position (* [--idx] would wrap: not reached when [N_AXIS >= 2] *)
  | S idx' =>
      let position :=
        match idx' with
        | 0%nat (* X_AXIS *) =>
            let q := xy_to_q (x xy) (y xy) in
            <[A_MOTOR := to_int32 (q1 q * steps_per_mm (axis settings !!! A_MOTOR)
                                   + of_int pulloff)]> position
        | 1%nat (* Y_AXIS *) =>
            let q := xy_to_q (x xy) (y xy) in
            <[B_MOTOR := to_int32 (q2 q * steps_per_mm (axis settings !!! B_MOTOR)
                                   + of_int pulloff)]> position
        | _ => <[idx' := 0%Z]> position
        end in
      match idx' with
      | O => position
      | S _ => machine_positions_loop settings xy idx' pulloff position
      end
  end.

(** [scara_limits_set_machine_positions(cycle)], on [sys.position];
    [cycle_mask] is [cycle.mask]. *)
Definition scara_limits_set_machine_positions (settings : settings_t)
  (cycle_mask : Z) (position : list Z) : list Z :=
  let xy := steps_xy settings position in
  if bit_istrue cycle_mask (bit (N_AXIS - 1)) then
    machine_positions_loop settings xy (N_AXIS - 1) 0%Z position
  else position.

(** [scara_transform_steps_to_cartesian(position, steps)]: the local
    array [angles] starts as [{0}] and every entry is then set from the
    step count of its axis. *)
Definition scara_transform_steps_to_cartesian (settings : settings_t)
  (position : vec) (steps : list Z) : vec :=
  let angles :=
    for_each_axis_down N_AXIS
      (fun idx a =>
         <[idx := of_int (steps !!! idx) / steps_per_mm (axis settings !!! idx)]> a)
      (replicate N_AXIS (of_int 0)) in
  scara_transform_to_cartesian position angles.

(** The value [pulloff] takes in the loop of
    [scara_limits_set_machine_positions] when [force_set_origin] is set,
    computed from the settings of axis [idx]. *)
Definition forced_origin_pulloff (settings : settings_t) (idx : nat) : Z :=
  if bit_istrue (dir_mask (homing settings)) (bit idx) then
    wrap_int32 (lroundf ((max_travel (axis settings !!! idx) + homing_pulloff (homing settings))
                         * steps_per_mm (axis settings !!! idx)))
  else
    wrap_int32 (lroundf (- homing_pulloff (homing settings)
                         * steps_per_mm (axis settings !!! idx))).

(** The offset the loop of [scara_limits_set_machine_positions] holds
    in the iteration entered with [idx], given the value [pulloff] it
    held before. *)
Definition pulloff_at (settings : settings_t) (idx : nat) (pulloff : Z) : Z :=
  if force_set_origin (homing settings) then forced_origin_pulloff settings idx
  else pulloff.

(** What [scara_init] does to [sys.position]: the initial angles, in
    steps, are 0 and -90 degrees.  (It also stores the link lengths in
    [machine] and installs the function pointers.) *)
Definition scara_init_position (settings : settings_t) (position : list Z) : list Z :=
  let position := <[A_MOTOR := 0%Z]> position in
  <[B_MOTOR := to_int32 (of_int (-90) * steps_per_mm (axis settings !!! B_MOTOR))]> position.

(** Settings for concrete runs: one step per unit on every axis, no
    forced origin. *)
Definition settings_unit_steps : settings_t :=
  {| axis := replicate N_AXIS {| steps_per_mm := of_int 1; max_travel := of_int (-100) |};
     homing := {| force_set_origin := false; dir_mask := 0%Z;
                  homing_pulloff := of_int 1 |} |}.

End Scara.

(** ** Binary32 arithmetic

    [float] is IEEE-754 binary32; every operation rounds to nearest, ties
    to even ([FLT_EVAL_METHOD] 0, no contraction).  The four libm calls
    are a parameter. *)
Module B32.

Definition prec : Z := 24.
Definition emax : Z := 128.

Definition is_nan (f : spec_float) : bool :=
  match f with S754_nan => true | _ => false end.

Definition is_finite (f : spec_float) : bool :=
  match f with S754_zero _ | S754_finite _ _ _ => true | _ => false end.

Definition of_Z (z : Z) : spec_float := binary_normalize prec emax z 0 false.

(** The integer part of a finite value, toward zero; 0 for NaN and the
    infinities (C gives those conversions no meaning). *)
Definition trunc (f : spec_float) : Z :=
  match f with
  | S754_finite s m e =>
      cond_Zopp s (match e with
                   | Z0 => Zpos m
                   | Zpos p => Zpos m * 2 ^ Zpos p
                   | Zneg p => Zpos m / 2 ^ Zpos p
                   end)
  | _ => 0
  end.

(** [ceilf]: the least integer not below the argument, with the
    argument's sign when that integer is zero. *)
Definition ceil (f : spec_float) : spec_float :=
  match f with
  | S754_finite s m (Zneg p) =>
      let n := - ((- cond_Zopp s (Zpos m)) / 2 ^ Zpos p) in
      binary_normalize prec emax n 0 s
  | _ => f
  end.

(** [lroundf]: nearest integer, halfway cases away from zero; 0 for NaN
    and the infinities. *)
Definition lround (f : spec_float) : Z :=
  match f with
  | S754_finite s m e =>
      cond_Zopp s (match e with
                   | Z0 => Zpos m
                   | Zpos p => Zpos m * 2 ^ Zpos p
                   | Zneg p => (Zpos m + 2 ^ (Zpos p - 1)) / 2 ^ Zpos p
                   end)
  | _ => 0
  end.

(** [0.01745329251994329577f] and [57.29577951308232087680f]. *)
Definition RADDEG32 : spec_float := S754_finite false 9370165 (-29).
Definition DEGRAD32 : spec_float := S754_finite false 15019745 (-18).

Class Libm := {
  m_cosf : spec_float -> spec_float;
  m_sinf : spec_float -> spec_float;
  m_acosf : spec_float -> spec_float;
  m_atan2f : spec_float -> spec_float -> spec_float;
}.

#[export] Instance arith {m : Libm} : Arith := {|
  F := spec_float;
  NAN := S754_nan;
  isnan := is_nan;
  fadd := SFadd prec emax;
  fsub := SFsub prec emax;
  fmul := SFmul prec emax;
  fdiv := SFdiv prec emax;
  fneg := SFopp;
  fgt := fun a b => SFltb b a;
  of_int := of_Z;
  ftrunc := trunc;
  RADDEG := RADDEG32;
  DEGRAD := DEGRAD32;
  sqrtf := SFsqrt prec emax;
  ceilf := ceil;
  lroundf := lround;
  cosf := m_cosf;
  sinf := m_sinf;
  acosf := m_acosf;
  atan2f := m_atan2f;
|}.

(** The exact value of a finite float in units of [2^-149], the
    least positive binary32 number: an integer for every float whose
    exponent is at least -149. *)
Definition units (f : spec_float) : Z :=
  match f with
  | S754_finite s m e => cond_Zopp s (Zpos m * 2 ^ (e + 149))
  | _ => 0
  end.

(** A zero or a finite number in canonical form: what every finite
    binary32 value is. *)
Definition finite_valid (f : spec_float) : Prop :=
  is_finite f = true /\ valid_binary prec emax f = true.

(** Where a shift record stands on the line of quarter units: four
    times the mantissa, plus 1, 2 or 3 when the bits shifted out put the
    value below, at or above the midpoint to the next mantissa. *)
Definition quarter_pos (mrs : shr_record) : Z :=
  4 * shr_m mrs + (if shr_r mrs then 2 else 0) + (if shr_s mrs then 1 else 0).


(** [-1 <= c <= 1]: the domain of [acosf]. *)
Definition in_unit_range (c : spec_float) : bool :=
  SFleb (of_Z (-1)) c && SFleb c (of_Z 1).


End B32.

(** ** A reference libm

    libm is not part of the repository.  The theorems below that hold for
    every libm quantify over [B32.Libm]; concrete runs need one, and
    [RefLibm] supplies it: each function is evaluated in fixed point with
    [S] fractional bits from its defining series, then rounded once to
    binary32, with the special values of C99 Annex F.  It stands for a
    libm that is accurate to the last bit or two; it is not claimed to be
    bit-identical to any particular C library. *)
Module RefLibm.
Import B32.

(** Fixed point: the integer [a] stands for [a / 2^S]. *)
Definition S : Z := 300.
Definition fx_one : Z := 2 ^ S.
Definition fx_mul (a b : Z) : Z := (a * b) / fx_one.
Definition fx_div (a b : Z) : Z := (a * fx_one) / b.
Definition fx_sqrt (a : Z) : Z := Z.sqrt (a * fx_one).

(** [sum (-1)^k t^(2k+1) / (2k+1)], [n] terms from index [k];
    [pow] is [t^(2k+1)] and [t2] is [t^2]. *)
Fixpoint atan_series (n : nat) (k : Z) (pow t2 : Z) : Z :=
  match n with
  | O => 0
  | Datatypes.S n' =>
      let term := pow / (2 * k + 1) in
      (if Z.even k then term else - term)
      + atan_series n' (k + 1) (fx_mul pow t2) t2
  end.

(** [atan t] for [0 <= t <= 1]: three halvings
    [atan t = 2 atan (t / (1 + sqrt (1 + t^2)))], then the series. *)
Definition atan_halve (t : Z) : Z :=
  fx_div t (fx_one + fx_sqrt (fx_one + fx_mul t t)).
Definition atan_unit (t : Z) : Z :=
  let u := atan_halve (atan_halve (atan_halve t)) in
  8 * atan_series 60 0 u (fx_mul u u).

(** Machin: [pi = 16 atan (1/5) - 4 atan (1/239)]. *)
Definition fx_pi : Z :=
  Eval vm_compute in
    (let a5 := fx_one / 5 in
     let a239 := fx_one / 239 in
     16 * atan_series 140 0 a5 (fx_mul a5 a5)
     - 4 * atan_series 40 0 a239 (fx_mul a239 a239)).

(** The argument of the point [(b, a)] for integers [a, b >= 0], not both
    zero, in [0, pi/2]. *)
Definition atan2_quadrant (a b : Z) : Z :=
  if a <=? b then atan_unit (fx_div a b)
  else fx_pi / 2 - atan_unit (fx_div b a).

(** Rounding of the fixed-point value [v] (with sign [s]) to binary32. *)
Definition round_fx (s : bool) (v : Z) : spec_float :=
  binary_normalize prec emax (cond_Zopp s v) (- S) s.

(** The exact value of a finite float as a fixed-point integer (every
    binary32 exponent is above [-S]). *)
Definition fx_of_float (m : positive) (e : Z) : Z := Zpos m * 2 ^ (e + S).

Definition sign_of (f : spec_float) : bool :=
  match f with
  | S754_zero s | S754_infinity s | S754_finite s _ _ => s
  | S754_nan => false
  end.

Definition atan2f (y x : spec_float) : spec_float :=
  match y, x with
  | S754_nan, _ | _, S754_nan => S754_nan
  | S754_zero sy, _ =>
      if sign_of x then round_fx sy fx_pi else S754_zero sy
  | S754_finite sy _ _, S754_zero _ => round_fx sy (fx_pi / 2)
  | S754_finite sy _ _, S754_infinity sx =>
      if sx then round_fx sy fx_pi else S754_zero sy
  | S754_infinity sy, S754_infinity sx =>
      round_fx sy (if sx then 3 * fx_pi / 4 else fx_pi / 4)
  | S754_infinity sy, _ => round_fx sy (fx_pi / 2)
  | S754_finite sy my ey, S754_finite sx mx ex =>
      let a := fx_of_float my ey in
      let b := fx_of_float mx ex in
      if negb sx && (fx_div a b <? 2 ^ (S - 100)) then
        (* far below the resolution of the series: atan t = t *)
        SFdiv prec emax y x
      else
        let th := atan2_quadrant a b in
        round_fx sy (if sx then fx_pi - th else th)
  end.

(** [sum (-1)^k r^(2k+d) / (2k+d)!] from index [k], [n] terms: the sine
    series for [d = 1], the cosine series for [d = 0]; [term] is the
    current term without its sign. *)
Fixpoint sincos_series (n : nat) (i : Z) (term r2 : Z) (neg : bool) : Z :=
  match n with
  | O => 0
  | Datatypes.S n' =>
      (if neg then - term else term)
      + sincos_series n' (i + 2) (fx_mul term r2 / ((i + 1) * (i + 2))) r2 (negb neg)
  end.
Definition fx_sin (r : Z) : Z := sincos_series 40 1 r (fx_mul r r) false.
Definition fx_cos (r : Z) : Z := sincos_series 40 0 fx_one (fx_mul r r) false.

(** Reduction of [v] to [r] in [-pi/4, pi/4] with [v = k pi/2 + r]. *)
Definition reduce (v : Z) : Z * Z :=
  let k := (2 * v + fx_pi / 2) / fx_pi in
  (k mod 4, v - k * fx_pi / 2).

Definition round_signed (v : Z) : spec_float :=
  binary_normalize prec emax v (- S) false.

Definition sinf (x : spec_float) : spec_float :=
  match x with
  | S754_finite s m e =>
      let '(k, r) := reduce (cond_Zopp s (fx_of_float m e)) in
      round_signed (if k =? 0 then fx_sin r
                    else if k =? 1 then fx_cos r
                    else if k =? 2 then - fx_sin r
                    else - fx_cos r)
  | S754_zero _ => x
  | _ => S754_nan
  end.

Definition cosf (x : spec_float) : spec_float :=
  match x with
  | S754_finite s m e =>
      let '(k, r) := reduce (cond_Zopp s (fx_of_float m e)) in
      round_signed (if k =? 0 then fx_cos r
                    else if k =? 1 then - fx_sin r
                    else if k =? 2 then - fx_cos r
                    else fx_sin r)
  | S754_zero _ => round_signed fx_one
  | _ => S754_nan
  end.

(** [acos x = atan2 (sqrt (1 - x^2), x)]; NaN outside [-1, 1]. *)
Definition acosf (x : spec_float) : spec_float :=
  match x with
  | S754_zero _ => round_fx false (fx_pi / 2)
  | S754_finite s m e =>
      let v := fx_of_float m e in
      if fx_one <? v then S754_nan
      else
        let w := fx_sqrt (fx_one - fx_mul v v) in
        if w =? 0 then (if s then round_fx false fx_pi else S754_zero false)
        else
          let th := atan2_quadrant w v in
          round_fx false (if s then fx_pi - th else th)
  | _ => S754_nan
  end.

#[export] Instance libm : Libm :=
  {| m_cosf := cosf; m_sinf := sinf; m_acosf := acosf; m_atan2f := atan2f |}.

End RefLibm.

(** What C11 7.12.4 and Annex F.10.1 prescribe for the libm calls that
    [xy_to_q] makes at [(x, y)]: [acosf] returns NaN outside [-1, 1] and
    a finite angle inside, [sinf] of a finite angle is finite, [atan2f]
    of two numbers is a finite angle. *)
Definition libm_regular_at {m : B32.Libm} (x y : spec_float) : Prop :=
  let c := cos_q12_of (A := B32.arith) (r_sq_of (A := B32.arith) x y) in
  let q12 := B32.m_acosf c in
  let by_ := SFmul B32.prec B32.emax (B32.of_Z 450) (B32.m_sinf q12) in
  let bx := SFadd B32.prec B32.emax (B32.of_Z 500)
              (SFmul B32.prec B32.emax (B32.of_Z 450) c) in
  (B32.in_unit_range c = false -> B32.is_nan (B32.m_acosf c) = true)
  /\ (B32.in_unit_range c = true -> B32.is_finite (B32.m_acosf c) = true)
  /\ (B32.is_finite q12 = true -> B32.is_finite (B32.m_sinf q12) = true)
  /\ (B32.is_nan y = false -> B32.is_nan x = false ->
      B32.is_finite (B32.m_atan2f y x) = true)
  /\ (B32.is_nan by_ = false -> B32.is_nan bx = false ->
      B32.is_finite (B32.m_atan2f by_ bx) = true).
(** ** The build used for concrete runs: three axes, a 32-bit
    [uint_fast16_t] (grblHAL's default axis count on its 32-bit targets). *)
Definition build3 : Build := {| N_AXIS := 3; UINT_FAST16_BITS := 32 |}.



(** ** Inputs of the concrete runs (binary32, the reference libm) *)
Module Example.

Abbreviation arith32 := (@B32.arith RefLibm.libm).
Definition fl (z : Z) : @F arith32 := B32.of_Z z.

(** Both joints at 0 degrees: the arm lies stretched along x, at the
    cartesian point (950, 0); the third axis is at 1. *)
Definition joints_stretched : list (@F arith32) := [fl 0; fl 0; fl 1].
(** The joint angles [scara_init] sets: (0, -90) degrees, cartesian
    (500, -450) up to rounding. *)
Definition joints_home : list (@F arith32) := [fl 0; fl (-90); fl 1].

(** Targets at planar distance 150 and 1.5 from (950, 0), and one that
    no arm position reaches. *)
Definition target_150 : list (@F arith32) := [fl 800; fl 0; fl 5].
Definition target_1_5 : list (@F arith32) :=
  [SFdiv B32.prec B32.emax (fl 1897) (fl 2); fl 0; fl 5].
Definition target_far : list (@F arith32) := [fl 2000; fl 0; fl 5].

Definition start : @statics arith32 := @statics_zero arith32 build3.

Definition settings1 : @settings_t arith32 := @settings_unit_steps arith32 build3.

(** Settings with [force_set_origin] on and different steps per unit on
    every axis: 1, 2 and 4. *)
Definition settings_forced : @settings_t arith32 :=
  {| axis := [ {| steps_per_mm := fl 1; max_travel := fl (-100) |};
               {| steps_per_mm := fl 2; max_travel := fl (-200) |};
               {| steps_per_mm := fl 4; max_travel := fl (-300) |} ];
     homing := {| force_set_origin := true; dir_mask := 0%Z;
                  homing_pulloff := fl 1 |} |}.

(** A target 50 mm from the stretched arm. *)
Definition target_50 : list (@F arith32) := [fl 900; fl 0; fl 5].




End Example.

(** * Properties that hold in every arithmetic *)
Section Facts.
Context {A : Arith} {B : Build}.

Lemma wrap_unsigned_small bits z :
  (0 <= z < 2 ^ bits)%Z -> wrap_unsigned bits z = z.
Proof. intros H. unfold wrap_unsigned. by apply Z.mod_small. Qed.

(** **** The pass-through copy *)

Lemma copy_higher_length idx (dst src : vec) :
  length (copy_higher idx dst src) = length dst.
Proof.
  revert dst. induction idx as [|i IH]; intros dst; simpl.
  - by rewrite length_insert.
  - destruct (Y_AXIS <? i)%nat; rewrite ?IH, length_insert; done.
Qed.

Lemma copy_higher_above idx (dst src : vec) j :
  (idx < j)%nat -> copy_higher idx dst src !! j = dst !! j.
Proof.
  revert dst. induction idx as [|i IH]; intros dst Hj; simpl.
  - apply list_lookup_insert_ne. lia.
  - destruct (Y_AXIS <? i)%nat.
    + rewrite IH by lia. apply list_lookup_insert_ne. lia.
    + apply list_lookup_insert_ne. lia.
Qed.

Lemma copy_higher_low idx (dst src : vec) j :
  (j < 2)%nat -> (2 <= idx)%nat ->
  copy_higher idx dst src !! j = dst !! j.
Proof.
  revert dst. induction idx as [|i IH]; intros dst Hj Hi; [lia|].
  simpl. destruct (Nat.ltb_spec Y_AXIS i) as [Hlt|Hge].
  - unfold Y_AXIS in Hlt. rewrite IH by lia.
    apply list_lookup_insert_ne. lia.
  - apply list_lookup_insert_ne. lia.
Qed.

Lemma copy_higher_high idx (dst src : vec) j :
  (2 <= j <= idx)%nat -> (idx < length dst)%nat ->
  copy_higher idx dst src !! j = Some (src !!! j).
Proof.
  revert dst. induction idx as [|i IH]; intros dst Hj Hlen; [lia|].
  simpl. destruct (Nat.ltb_spec Y_AXIS i) as [Hlt|Hge]; unfold Y_AXIS in *.
  - destruct (decide (j = S i)) as [->|Hne].
    + rewrite copy_higher_above by lia.
      apply list_lookup_insert_eq. lia.
    + apply IH; [lia|]. rewrite length_insert. lia.
  - assert (j = S i) as -> by lia.
    apply list_lookup_insert_eq. lia.
Qed.



(** **** One call of the segmenter *)

Lemma segment_line_result (target position : vec) (rapid init : bool) (s : statics) :
  let s1 := if init then segment_line_init target position rapid s
            else segment_line_advance s in
  let r := scara_transform_from_cartesian (current_position s1) (segment_target s1) in
  fst (scara_segment_line target position rapid init s)
  = (if (iterations s1 =? 0)%Z || jog_cancel s1 then None else Some (buffer r))
  /\ let s2 := snd (scara_segment_line target position rapid init s) in
     jog_cancel s2 = jog_cancel s1 /\ do_segments s2 = do_segments s1
     /\ iterations s2 = iterations s1 /\ delta s2 = delta s1
     /\ segment_target s2 = segment_target s1 /\ current_position s2 = buffer r
     /\ final_target s2 = final_target s1 /\ alarms s2 = raised r ++ alarms s1.
Proof.
  intros s1 r. unfold scara_segment_line. fold s1. fold r.
  cbn [iterations jog_cancel].
  destruct ((iterations s1 =? 0)%Z || jog_cancel s1); simpl; repeat split.
Qed.

Lemma init_iterations (target position : vec) (rapid : bool) (s : statics) :
  iterations (segment_line_init target position rapid s)
  = wrap_unsigned UINT_FAST16_BITS (init_count target position rapid s + 1).
Proof.
  unfold segment_line_init, init_count, init_do_segments, init_distance,
    init_total_delta, init_current_position.
  destruct (negb rapid && _); reflexivity.
Qed.

Lemma init_do_segments_eq (target position : vec) (rapid : bool) (s : statics) :
  do_segments (segment_line_init target position rapid s)
  = init_do_segments target position rapid s.
Proof.
  unfold segment_line_init, init_do_segments, init_distance,
    init_total_delta, init_current_position.
  destruct (negb rapid && _); reflexivity.
Qed.

Lemma init_fields (target position : vec) (rapid : bool) (s : statics) :
  let s1 := segment_line_init target position rapid s in
  jog_cancel s1 = false /\ final_target s1 = target
  /\ current_position s1 = init_current_position position s
  /\ segment_target s1
     = (if do_segments s1 then init_current_position position s else target)
  /\ alarms s1 = alarms s.
Proof.
  unfold segment_line_init, init_current_position.
  destruct (negb rapid && _); simpl; repeat split.
Qed.

Lemma init_count_nonneg (target position : vec) (rapid : bool) (s : statics) :
  (0 <= UINT_FAST16_BITS)%Z -> (0 <= init_count target position rapid s)%Z.
Proof.
  intros Hw. unfold init_count, to_uint_fast16, wrap_unsigned.
  destruct (init_do_segments _ _ _ _); [|lia].
  apply Z.mod_pos_bound. lia.
Qed.

(** **** Later calls *)

Lemma next_step (s : statics) :
  (1 <= iterations s < 2 ^ UINT_FAST16_BITS)%Z -> jog_cancel s = false ->
  let s1 := segment_line_advance s in
  let r := scara_transform_from_cartesian (current_position s) (segment_target s1) in
  let s' := snd (next s) in
  fst (next s) = (if (iterations s =? 1)%Z then None else Some (buffer r))
  /\ iterations s' = (iterations s - 1)%Z /\ jog_cancel s' = false
  /\ do_segments s' = do_segments s /\ final_target s' = final_target s
  /\ segment_target s' = segment_target s1
  /\ current_position s' = buffer r
  /\ alarms s' = raised r ++ alarms s.
Proof.
  intros Hit Hc s1 r s'.
  destruct (segment_line_result [] [] false false s) as (Hres & Hj & Hd & Hi & _ & Hs & Hcur & Hf & Ha).
  fold (next s) in *. fold s' in Hj, Hd, Hi, Hs, Hcur, Hf, Ha.
  cbv zeta in Hres. fold s1 in Hres, Hj, Hd, Hi, Hs, Hcur, Hf, Ha.
  assert (Hw : iterations s1 = (iterations s - 1)%Z).
  { unfold s1, segment_line_advance. simpl. apply wrap_unsigned_small. lia. }
  assert (Hj1 : jog_cancel s1 = false) by exact Hc.
  assert (Hc1 : current_position s1 = current_position s) by reflexivity.
  rewrite Hc1 in Hres, Hcur. fold r in Hres, Hcur.
  rewrite Hw, Hj1, orb_false_r in Hres.
  replace (iterations s - 1 =? 0)%Z with (iterations s =? 1)%Z in Hres
    by (destruct (Z.eqb_spec (iterations s) 1), (Z.eqb_spec (iterations s - 1) 0); lia).
  repeat split; try assumption; congruence.
Qed.

Lemma run_next_S (n : nat) (s : statics) :
  fst (run_next (S n) s) = fst (next s) :: fst (run_next n (snd (next s)))
  /\ snd (run_next (S n) s) = snd (run_next n (snd (next s))).
Proof.
  cbn [run_next]. destruct (next s) as [r s1]. cbn [fst snd].
  destruct (run_next n s1) as [rs s2]. split; reflexivity.
Qed.

Lemma lookup_cons_shift {T : Type} (r : T) (rs : list T) (i : nat) :
  (r :: rs) !! S i = rs !! i.
Proof. reflexivity. Qed.

Lemma run_next_yields (n : nat) (s : statics) :
  iterations s = (Z.of_nat n + 1)%Z ->
  (iterations s < 2 ^ UINT_FAST16_BITS)%Z ->
  jog_cancel s = false ->
  yields_segments n s.
Proof.
  revert s. induction n as [|n IH]; intros s Hit Hw Hc.
  - assert (Hit1 : (1 <= iterations s < 2 ^ UINT_FAST16_BITS)%Z) by lia.
    destruct (next_step s Hit1 Hc) as (Hres & _).
    unfold yields_segments. destruct (run_next_S 0 s) as [-> _].
    split; [intros i Hi; lia|].
    change ((?r :: ?rs) !! 0%nat) with (Some r). rewrite Hres, Hit. reflexivity.
  - assert (Hit1 : (1 <= iterations s < 2 ^ UINT_FAST16_BITS)%Z) by lia.
    destruct (next_step s Hit1 Hc) as (Hres & Hi1 & Hc1 & _).
    assert (Hn : iterations (snd (next s)) = (Z.of_nat n + 1)%Z) by lia.
    assert (Hb : (iterations (snd (next s)) < 2 ^ UINT_FAST16_BITS)%Z) by lia.
    specialize (IH (snd (next s)) Hn Hb Hc1). clear Hn Hb.
    unfold yields_segments in *.
    destruct (run_next_S (S n) s) as [-> _].
    destruct IH as [IHa IHb]. split.
    + intros [|i] Hi.
      * eexists. change ((?r :: ?rs) !! 0%nat) with (Some r). rewrite Hres.
        destruct (Z.eqb_spec (iterations s) 1); [lia|reflexivity].
      * rewrite lookup_cons_shift. apply IHa. lia.
    + rewrite lookup_cons_shift. exact IHb.
Qed.


End Facts.

(** * The segmenter and the wrappers, in every arithmetic *)
Section Segmenter.
Context {A : Arith} {B : Build}.

(** The wrapper on a reachable point: the buffer holds the two joint
    angles followed by the pass-through axes of the input. *)
Lemma from_cartesian_reachable (target_q position_xy : vec) :
  (3 <= N_AXIS)%nat -> length target_q = N_AXIS ->
  unreachable (position_xy !!! A_MOTOR) (position_xy !!! B_MOTOR) = false ->
  let r := scara_transform_from_cartesian target_q position_xy in
  let q := xy_to_q (position_xy !!! A_MOTOR) (position_xy !!! B_MOTOR) in
  returned_null r = false /\ raised r = []
  /\ buffer r !! A_MOTOR = Some (q1 q) /\ buffer r !! B_MOTOR = Some (q2 q)
  /\ (forall idx, (2 <= idx < N_AXIS)%nat -> buffer r !! idx = Some (position_xy !!! idx))
  /\ length (buffer r) = N_AXIS.
Proof.
  intros HN Hlen Hreach. unfold scara_transform_from_cartesian.
  unfold unreachable in Hreach. cbv zeta in Hreach. rewrite Hreach. cbv zeta.
  cbn [returned_null raised buffer]. unfold A_MOTOR, B_MOTOR, X_AXIS, Y_AXIS.
  assert (Hl : length (copy_higher (N_AXIS - 1) target_q position_xy) = N_AXIS)
    by (by rewrite copy_higher_length).
  repeat split.
  - rewrite list_lookup_insert_ne by lia.
    apply list_lookup_insert_eq. lia.
  - apply list_lookup_insert_eq. rewrite length_insert. lia.
  - intros idx Hidx.
    rewrite !list_lookup_insert_ne by lia.
    apply copy_higher_high; lia.
  - by rewrite !length_insert.
Qed.

(** The wrapper on an unreachable point leaves the driven components
    alone and raises the alarm. *)
Lemma from_cartesian_unreachable (target_q position_xy : vec) :
  (3 <= N_AXIS)%nat ->
  unreachable (position_xy !!! A_MOTOR) (position_xy !!! B_MOTOR) = true ->
  let r := scara_transform_from_cartesian target_q position_xy in
  raised r = [Alarm_SoftLimit]
  /\ buffer r !! A_MOTOR = target_q !! A_MOTOR
  /\ buffer r !! B_MOTOR = target_q !! B_MOTOR.
Proof.
  intros HN Hun. unfold scara_transform_from_cartesian.
  unfold unreachable in Hun. cbv zeta in Hun. rewrite Hun. cbv zeta.
  cbn [raised buffer]. unfold A_MOTOR, B_MOTOR, X_AXIS, Y_AXIS.
  repeat split; apply copy_higher_low; lia.
Qed.

(** C10: when the cartesian-to-joint wrapper signals Unreachable (it
    returns [NULL] and raises the soft-limit alarm), the caller's buffer
    already holds the input's value in every pass-through component
    (indices 2 and above), while the two driven components are the ones
    the buffer had before the call. *)
Theorem from_cartesian_unreachable_writes_passthrough (target_q position_xy : vec) :
  (3 <= N_AXIS)%nat -> length target_q = N_AXIS ->
  unreachable (position_xy !!! A_MOTOR) (position_xy !!! B_MOTOR) = true ->
  let r := scara_transform_from_cartesian target_q position_xy in
  returned_null r = true /\ raised r = [Alarm_SoftLimit]
  /\ (forall idx, (2 <= idx < N_AXIS)%nat -> buffer r !! idx = Some (position_xy !!! idx))
  /\ buffer r !! A_MOTOR = target_q !! A_MOTOR
  /\ buffer r !! B_MOTOR = target_q !! B_MOTOR.
Proof.
  intros HN Hlen Hun. unfold scara_transform_from_cartesian.
  unfold unreachable in Hun. cbv zeta in Hun. rewrite Hun. cbv zeta.
  cbn [returned_null raised buffer]. unfold A_MOTOR, B_MOTOR, X_AXIS, Y_AXIS.
  repeat split.
  - intros idx Hidx. apply copy_higher_high; lia.
  - apply copy_higher_low; lia.
  - apply copy_higher_low; lia.
Qed.

(** C6: a call without [init] that follows [cancel_jog] returns the
    termination signal whatever [iterations] holds, and leaves the flag
    set; every call with [init] leaves the flag cleared. *)
Theorem cancel_terminates_and_init_resumes :
  (forall (target position : vec) (rapid : bool) (s : statics),
     let res := scara_segment_line target position rapid false (cancel_jog s) in
     fst res = None /\ jog_cancel (snd res) = true)
  /\ (forall (target position : vec) (rapid : bool) (s : statics),
     jog_cancel (snd (scara_segment_line target position rapid true s)) = false).
Proof.
  split; intros target position rapid s.
  - destruct (segment_line_result target position rapid false (cancel_jog s))
      as (Hres & Hj & _).
    cbv zeta in *. split.
    + rewrite Hres. cbn [segment_line_advance jog_cancel cancel_jog].
      by rewrite orb_true_r.
    + rewrite Hj. reflexivity.
  - destruct (segment_line_result target position rapid true s) as (_ & Hj & _).
    cbv zeta in Hj. rewrite Hj. apply init_fields.
Qed.

(** Without the cancellation the same call returns a waypoint. *)
Lemma next_returns_waypoint (s : statics) :
  (1 < iterations s < 2 ^ UINT_FAST16_BITS)%Z -> jog_cancel s = false ->
  exists v, fst (next s) = Some v.
Proof.
  intros Hit Hc.
  assert (Hit1 : (1 <= iterations s < 2 ^ UINT_FAST16_BITS)%Z) by lia.
  destruct (next_step s Hit1 Hc) as (Hres & _).
  rewrite Hres. destruct (Z.eqb_spec (iterations s) 1); [lia|]. eauto.
Qed.

(** The call with [init], when the segment count fits the counter. *)
Lemma init_call (target position : vec) (rapid : bool) (s : statics) :
  (16 <= UINT_FAST16_BITS)%Z ->
  (init_count target position rapid s + 1 < 2 ^ UINT_FAST16_BITS)%Z ->
  let res := scara_segment_line target position rapid true s in
  let cur := init_current_position position s in
  let p := if init_do_segments target position rapid s then cur else target in
  fst res = Some (buffer (scara_transform_from_cartesian cur p))
  /\ segment_target (snd res) = p
  /\ (1 <= iterations (snd res))%Z
  /\ (init_do_segments target position rapid s = false -> iterations (snd res) = 2%Z)
  /\ jog_cancel (snd res) = false
  /\ alarms (snd res) = raised (scara_transform_from_cartesian cur p) ++ alarms s
  /\ final_target (snd res) = target
  /\ do_segments (snd res) = init_do_segments target position rapid s
  /\ (iterations (snd res) < 2 ^ UINT_FAST16_BITS)%Z
  /\ iterations (snd res) = (init_count target position rapid s + 1)%Z
  /\ current_position (snd res) = buffer (scara_transform_from_cartesian cur p).
Proof.
  intros Hw Hfit res cur p.
  destruct (segment_line_result target position rapid true s)
    as (Hres & Hj & Hd & Hi & _ & Hs & Hcp & Hf & Ha).
  fold res in Hres, Hj, Hd, Hi, Hs, Hcp, Hf, Ha.
  cbv zeta in Hres, Hj, Hd, Hi, Hs, Hcp, Hf, Ha.
  destruct (init_fields target position rapid s) as (Hj1 & Hf1 & Hc1 & Hs1 & Ha1).
  rewrite init_do_segments_eq in Hd.
  rewrite init_do_segments_eq in Hs1. fold cur in Hc1, Hs1. fold p in Hs1.
  assert (Hw0 : (0 <= UINT_FAST16_BITS)%Z) by lia.
  pose proof (init_count_nonneg target position rapid s Hw0) as Hnn.
  assert (Hit : iterations (segment_line_init target position rapid s)
                = (init_count target position rapid s + 1)%Z).
  { rewrite init_iterations. apply wrap_unsigned_small. lia. }
  rewrite Hit, Hj1, Hc1, Hs1 in Hres. rewrite Hit in Hi.
  rewrite Hc1, Hs1, Ha1 in Ha. rewrite Hc1, Hs1 in Hcp.
  rewrite Hs, Hs1, Hi, Hj, Hj1, Hres, Ha, Hf, Hf1, Hd, Hcp.
  repeat split; try lia.
  - destruct (Z.eqb_spec (init_count target position rapid s + 1) 0); [lia|reflexivity].
  - intros Hno. unfold init_count. rewrite Hno. reflexivity.
Qed.

(** What a later call does when the segment target is unreachable: the
    alarm is raised, and the call still returns the buffer, whose driven
    components are left over from the previous call. *)
Lemma next_on_unreachable_target (s : statics) :
  (3 <= N_AXIS)%nat ->
  (1 < iterations s < 2 ^ UINT_FAST16_BITS)%Z -> jog_cancel s = false ->
  let t := segment_target (segment_line_advance s) in
  unreachable (t !!! A_MOTOR) (t !!! B_MOTOR) = true ->
  exists v, fst (next s) = Some v
    /\ v !! A_MOTOR = current_position s !! A_MOTOR
    /\ v !! B_MOTOR = current_position s !! B_MOTOR
    /\ alarms (snd (next s)) = Alarm_SoftLimit :: alarms s.
Proof.
  intros HN Hit Hc t Hun.
  assert (Hit1 : (1 <= iterations s < 2 ^ UINT_FAST16_BITS)%Z) by lia.
  destruct (next_step s Hit1 Hc) as (Hres & _ & _ & _ & _ & _ & _ & Ha).
  fold t in Hres, Ha.
  destruct (from_cartesian_unreachable (current_position s) t HN Hun)
    as (Hr & H0 & H1).
  eexists. rewrite Hres, Ha, Hr.
  destruct (Z.eqb_spec (iterations s) 1); [lia|].
  repeat split; assumption.
Qed.

(** C7: when [x*x + y*y] is not above [(l1+l2)^2], [xy_to_q] returns, in
    degrees, [q1 = atan2(y, x) + beta] and [q2 = q1 + (-q12)], where
    [q12 = acos(c)], [beta = atan2(l2 sin(q12), l1 + l2 c)] and [c] is
    the law-of-cosines ratio [(x^2 + y^2 - l1^2 - l2^2) / (2 l1 l2)]: the
    elbow-up branch with an absolute second angle. *)
Theorem xy_to_q_elbow_up_absolute (x y : F) :
  fgt (x * x + y * y)%flt
      ((SCARA_L1 + SCARA_L2) * (SCARA_L1 + SCARA_L2))%flt = false ->
  let c := ((x * x + y * y - SCARA_L1 * SCARA_L1 - SCARA_L2 * SCARA_L2)
            / (of_int 2 * SCARA_L1 * SCARA_L2))%flt in
  let q12 := acosf c in
  let beta := atan2f (SCARA_L2 * sinf q12)%flt (SCARA_L1 + SCARA_L2 * c)%flt in
  let q1_rad := (atan2f y x + beta)%flt in
  let q2_rad := (q1_rad + - q12)%flt in
  xy_to_q x y = {| q1 := (q1_rad * DEGRAD)%flt; q2 := (q2_rad * DEGRAD)%flt |}.
Proof.
  intros Hle. unfold xy_to_q, r_sq_of, cos_q12_of. cbn [machine l1 l2].
  rewrite Hle. reflexivity.
Qed.


(** C1, as the code has it: a session whose target is out of reach and
    that does not segment raises the alarm on the call with [init] and
    on the next call, and both calls return the buffer, not the
    termination signal; the buffer of the second call is the buffer of
    the first. *)
Theorem segmenter_ignores_unreachable (target position : vec) (rapid : bool)
  (s : statics) :
  (3 <= N_AXIS)%nat -> (16 <= UINT_FAST16_BITS)%Z ->
  init_do_segments target position rapid s = false ->
  unreachable (target !!! A_MOTOR) (target !!! B_MOTOR) = true ->
  let r0 := scara_segment_line target position rapid true s in
  let r1 := next (snd r0) in
  (exists v0, fst r0 = Some v0
     /\ exists v1, fst r1 = Some v1
       /\ v1 !! A_MOTOR = v0 !! A_MOTOR /\ v1 !! B_MOTOR = v0 !! B_MOTOR)
  /\ iterations (snd r1) = 1%Z /\ jog_cancel (snd r1) = false
  /\ alarms (snd r1) = Alarm_SoftLimit :: Alarm_SoftLimit :: alarms s.
Proof.
  intros HN Hw Hno Hun r0 r1.
  assert (Hpow : (2 ^ 16 <= 2 ^ UINT_FAST16_BITS)%Z) by (apply Z.pow_le_mono_r; lia).
  change (2 ^ 16)%Z with 65536%Z in Hpow.
  assert (Hfit : (init_count target position rapid s + 1 < 2 ^ UINT_FAST16_BITS)%Z)
    by (unfold init_count; rewrite Hno; lia).
  destruct (init_call target position rapid s Hw Hfit)
    as (H0 & Hs & _ & Hi & Hj & Ha & Hf & Hd & _).
  fold r0 in H0, Hs, Hi, Hj, Ha, Hf, Hd. rewrite Hno in H0, Hs, Ha, Hd.
  specialize (Hi Hno).
  destruct (from_cartesian_unreachable (init_current_position position s) target HN Hun)
    as (Hr & _).
  rewrite Hr in Ha.
  assert (Hit1 : (1 <= iterations (snd r0) < 2 ^ UINT_FAST16_BITS)%Z) by lia.
  destruct (next_step (snd r0) Hit1 Hj) as (H1 & Hi1 & Hj1 & _ & _ & _ & _ & Ha1).
  fold r1 in H1, Hi1, Hj1, Ha1.
  assert (Hsnap : segment_target (segment_line_advance (snd r0)) = target).
  { unfold segment_line_advance. cbn [segment_target]. by rewrite Hd, Hf. }
  rewrite Hsnap in H1, Ha1.
  destruct (from_cartesian_unreachable (current_position (snd r0)) target HN Hun)
    as (Hr1 & Hb0 & Hb1).
  rewrite Hr1, Ha in Ha1. rewrite Hi in H1, Hi1.
  assert (Hcur : current_position (snd r0)
                 = buffer (scara_transform_from_cartesian
                             (init_current_position position s) target)).
  { destruct (segment_line_result target position rapid true s)
      as (_ & _ & _ & _ & _ & _ & Hc & _).
    fold r0 in Hc. cbv zeta in Hc. rewrite Hc.
    destruct (init_fields target position rapid s) as (_ & _ & Hc1 & Hs1 & _).
    rewrite init_do_segments_eq, Hno in Hs1. by rewrite Hc1, Hs1. }
  split; [|split; [lia|split; [assumption|assumption]]].
  eexists. split; [exact H0|].
  eexists. split; [exact H1|].
  rewrite <- Hcur. split; assumption.
Qed.

End Segmenter.

(** * The homing helpers *)
Section Homing.
Context {A : Arith} {B : Build}.

(** The amended C8: [scara_limits_set_target_pos] is idempotent on every
    axis but the two driven ones (it zeroes the axis), and
    [scara_limits_set_machine_positions] changes nothing, so is
    idempotent, when the cycle does not hold the highest axis. *)
Theorem limits_idempotent_off_driven_axes (settings : settings_t) (position : list Z) :
  (forall idx : nat, (2 <= idx)%nat ->
     scara_limits_set_target_pos settings idx
       (scara_limits_set_target_pos settings idx position)
     = scara_limits_set_target_pos settings idx position)
  /\ (forall cycle_mask : Z,
       bit_istrue cycle_mask (bit (N_AXIS - 1)) = false ->
       scara_limits_set_machine_positions settings cycle_mask position = position
       /\ scara_limits_set_machine_positions settings cycle_mask
            (scara_limits_set_machine_positions settings cycle_mask position)
          = scara_limits_set_machine_positions settings cycle_mask position).
Proof.
  split.
  - intros [|[|idx]] Hidx; [lia|lia|].
    unfold scara_limits_set_target_pos. apply list_insert_insert_eq.
  - intros cycle_mask Hbit.
    assert (Hid : forall p, scara_limits_set_machine_positions settings cycle_mask p = p)
      by (intros p; unfold scara_limits_set_machine_positions; by rewrite Hbit).
    by rewrite !Hid.
Qed.

End Homing.

(** * Binary32 operations never invent a NaN *)
Section SpecFloatFacts.
Import B32.

Lemma shr_1_nonneg (mrs : shr_record) :
  (0 <= shr_m mrs)%Z -> (0 <= shr_m (shr_1 mrs))%Z.
Proof.
  destruct mrs as [mz r s]. simpl.
  destruct mz as [|[p|p|]|[p|p|]]; simpl; lia.
Qed.

Lemma iter_shr_1_nonneg (p : positive) (mrs : shr_record) :
  (0 <= shr_m mrs)%Z -> (0 <= shr_m (SpecFloat.iter_pos shr_1 p mrs))%Z.
Proof.
  revert mrs. induction p as [p IH|p IH|]; intros mrs H; simpl.
  - apply IH, IH, shr_1_nonneg, H.
  - apply IH, IH, H.
  - apply shr_1_nonneg, H.
Qed.

Lemma shr_fexp_nonneg (mz e : Z) (l : location) :
  (0 <= mz)%Z -> (0 <= shr_m (fst (shr_fexp prec emax mz e l)))%Z.
Proof.
  intros H. unfold shr_fexp, shr.
  assert (H0 : (0 <= shr_m (shr_record_of_loc mz l))%Z)
    by (destruct l as [|[]]; exact H).
  destruct (fexp prec emax (Zdigits2 mz + e) - e)%Z; simpl; try exact H0.
  apply iter_shr_1_nonneg, H0.
Qed.

Lemma round_nearest_even_nonneg (mz : Z) (l : location) :
  (0 <= mz)%Z -> (0 <= round_nearest_even mz l)%Z.
Proof.
  intros H. destruct l as [|[]]; simpl; try lia.
  destruct (Z.even mz); lia.
Qed.

Lemma binary_round_aux_not_nan (sx : bool) (mz ez : Z) (l : location) :
  (0 <= mz)%Z -> is_nan (binary_round_aux prec emax sx mz ez l) = false.
Proof.
  intros H. unfold binary_round_aux.
  pose proof (shr_fexp_nonneg mz ez l H) as H1.
  destruct (shr_fexp prec emax mz ez l) as [mrs' e']. simpl in H1.
  pose proof (shr_fexp_nonneg _ e' loc_Exact
                (round_nearest_even_nonneg _ (loc_of_shr_record mrs') H1)) as H2.
  destruct (shr_fexp prec emax _ e' loc_Exact) as [mrs'' e'']. simpl in H2.
  destruct (shr_m mrs''); [reflexivity| |lia].
  destruct (e'' <=? emax - prec)%Z; reflexivity.
Qed.

Lemma binary_normalize_not_nan (z e : Z) (sz : bool) :
  is_nan (binary_normalize prec emax z e sz) = false.
Proof.
  destruct z; simpl; [reflexivity| |];
    unfold binary_round;
    destruct (shl_align _ _ _) as [mz ez];
    apply binary_round_aux_not_nan; lia.
Qed.

Lemma SFmul_finite_not_nan (a b : spec_float) :
  is_finite a = true -> is_finite b = true ->
  is_nan (SFmul prec emax a b) = false.
Proof.
  destruct a, b; simpl; try discriminate; try reflexivity.
  intros _ _. apply binary_round_aux_not_nan. lia.
Qed.

(** A product with a non-zero finite constant. *)
Lemma SFmul_const_not_nan (a : spec_float) (s : bool) (mk : positive) (ek : Z) :
  is_nan a = false ->
  is_nan (SFmul prec emax a (S754_finite s mk ek)) = false
  /\ is_nan (SFmul prec emax (S754_finite s mk ek) a) = false.
Proof.
  destruct a; simpl; try discriminate; try (split; reflexivity).
  intros _. split; apply binary_round_aux_not_nan; lia.
Qed.

Lemma SFadd_finite_not_nan (a b : spec_float) :
  is_nan a = false -> is_finite b = true ->
  is_nan (SFadd prec emax a b) = false /\ is_nan (SFadd prec emax b a) = false.
Proof.
  destruct a as [sa|sa| |sa ma ea], b as [sb|sb| |sb mb eb];
    simpl; try discriminate; intros _ _;
    try (split; reflexivity);
    try (destruct sa, sb; split; reflexivity).
  split; apply binary_normalize_not_nan.
Qed.

Lemma SFopp_finite (a : spec_float) : is_finite (SFopp a) = is_finite a.
Proof. by destruct a. Qed.

(** NaN propagates through the operations of [r_sq] and [cos_q12]. *)
Lemma SFmul_nan (a b : spec_float) :
  is_nan a = true \/ is_nan b = true -> is_nan (SFmul prec emax a b) = true.
Proof. destruct a, b; simpl; intros [H|H]; try discriminate; reflexivity. Qed.

Lemma SFadd_nan (a b : spec_float) :
  is_nan a = true \/ is_nan b = true -> is_nan (SFadd prec emax a b) = true.
Proof. destruct a, b; simpl; intros [H|H]; try discriminate; reflexivity. Qed.

Lemma SFsub_nan (a b : spec_float) :
  is_nan a = true \/ is_nan b = true -> is_nan (SFsub prec emax a b) = true.
Proof. destruct a, b; simpl; intros [H|H]; try discriminate; reflexivity. Qed.

Lemma SFdiv_nan (a b : spec_float) :
  is_nan a = true \/ is_nan b = true -> is_nan (SFdiv prec emax a b) = true.
Proof. destruct a, b; simpl; intros [H|H]; try discriminate; reflexivity. Qed.

Lemma in_unit_range_not_nan (c : spec_float) :
  in_unit_range c = true -> is_nan c = false.
Proof. destruct c; try reflexivity. discriminate. Qed.

Lemma is_finite_not_nan (a : spec_float) : is_finite a = true -> is_nan a = false.
Proof. destruct a; try reflexivity; discriminate. Qed.

Lemma not_nan_true_false (a : spec_float) : is_nan a <> true -> is_nan a = false.
Proof. destruct (is_nan a); congruence. Qed.

End SpecFloatFacts.

(** * Rounding to binary32 never crosses a representable bound *)
Section Binary32Bounds.
Import B32.

Lemma fexp32 (e : Z) : fexp prec emax e = Z.max (e - 24) (-149).
Proof. reflexivity. Qed.

Lemma fexp32_mono (a b : Z) : a <= b -> fexp prec emax a <= fexp prec emax b.
Proof. rewrite !fexp32. lia. Qed.

Lemma digits2_pos_bounds (m : positive) :
  2 ^ (Zpos (digits2_pos m) - 1) <= Zpos m < 2 ^ Zpos (digits2_pos m).
Proof.
  induction m as [m IH|m IH|]; cbn [digits2_pos].
  - rewrite Pos2Z.inj_succ.
    replace (Z.succ (Zpos (digits2_pos m)) - 1) with (Z.succ (Zpos (digits2_pos m) - 1)) by lia.
    rewrite !Z.pow_succ_r by lia. lia.
  - rewrite Pos2Z.inj_succ.
    replace (Z.succ (Zpos (digits2_pos m)) - 1) with (Z.succ (Zpos (digits2_pos m) - 1)) by lia.
    rewrite !Z.pow_succ_r by lia. lia.
  - simpl. lia.
Qed.

Lemma digits2_pos_unique (m : positive) (k : Z) :
  2 ^ (k - 1) <= Zpos m < 2 ^ k -> Zpos (digits2_pos m) = k.
Proof.
  intros [Hl Hu]. pose proof (digits2_pos_bounds m) as [Dl Du].
  assert (Hk : 0 < k).
  { destruct (Z_lt_le_dec 0 k) as [H|H]; [exact H|exfalso].
    destruct (Z.eq_dec k 0) as [->|Hk0]; [simpl in Hu; lia|].
    rewrite Z.pow_neg_r in Hu by lia. lia. }
  destruct (Z_lt_le_dec (Zpos (digits2_pos m)) k) as [H1|H1].
  - assert (2 ^ Zpos (digits2_pos m) <= 2 ^ (k - 1)) by (apply Z.pow_le_mono_r; lia). lia.
  - destruct (Z_lt_le_dec k (Zpos (digits2_pos m))) as [H2|H2]; [|lia].
    assert (2 ^ k <= 2 ^ (Zpos (digits2_pos m) - 1)) by (apply Z.pow_le_mono_r; lia). lia.
Qed.

(** A value below a power of two has at most that many digits. *)
Lemma digits2_pos_le (m : positive) (k : Z) :
  Zpos m < 2 ^ k -> Zpos (digits2_pos m) <= k.
Proof.
  intros Hu. pose proof (digits2_pos_bounds m) as [Dl _].
  destruct (Z_lt_le_dec k (Zpos (digits2_pos m))) as [H|H]; [|exact H].
  destruct (Z_lt_le_dec k 0) as [Hk|Hk].
  - rewrite Z.pow_neg_r in Hu by lia. lia.
  - assert (2 ^ k <= 2 ^ (Zpos (digits2_pos m) - 1)) by (apply Z.pow_le_mono_r; lia). lia.
Qed.

(** *** Shifting right

    [quarter_pos] places a shift record on the line of quarter units:
    the mantissa, then where the lost bits put the value between it and
    its successor. *)
Lemma shr_1_quarter (mrs : shr_record) (K : Z) :
  0 <= shr_m mrs -> quarter_pos mrs <= 8 * K ->
  0 <= shr_m (shr_1 mrs) /\ quarter_pos (shr_1 mrs) <= 4 * K.
Proof.
  destruct mrs as [mz r s]. unfold quarter_pos. cbn [shr_m shr_r shr_s].
  intros Hm H. destruct mz as [|[p|p|]|p]; [| | | |lia];
    destruct r, s; cbn [shr_1 orb shr_m shr_r shr_s] in *; lia.
Qed.

Lemma iter_shr_1_quarter (n : positive) :
  forall (mrs : shr_record) (K : Z),
  0 <= shr_m mrs -> quarter_pos mrs <= 4 * (K * 2 ^ Zpos n) ->
  0 <= shr_m (SpecFloat.iter_pos shr_1 n mrs)
  /\ quarter_pos (SpecFloat.iter_pos shr_1 n mrs) <= 4 * K.
Proof.
  induction n as [n IH|n IH|]; intros mrs K Hm H; cbn [SpecFloat.iter_pos].
  - replace (Zpos n~1) with (1 + Zpos n + Zpos n) in H by lia.
    rewrite !Z.pow_add_r, Z.pow_1_r in H by lia.
    replace (2 * 2 ^ Zpos n * 2 ^ Zpos n) with (2 * (2 ^ Zpos n * 2 ^ Zpos n)) in H by ring.
    set (a := 2 ^ Zpos n) in *.
    assert (H0 : quarter_pos mrs <= 8 * (K * a * a))
      by (replace (8 * (K * a * a)) with (4 * (K * (2 * (a * a)))) by ring; exact H).
    destruct (shr_1_quarter mrs (K * a * a) Hm H0) as [Hm1 H1].
    assert (H1' : quarter_pos (shr_1 mrs) <= 4 * (K * a * a)) by exact H1.
    destruct (IH _ (K * a) Hm1 H1') as [Hm2 H2].
    apply IH; [exact Hm2|exact H2].
  - replace (Zpos n~0) with (Zpos n + Zpos n) in H by lia.
    rewrite Z.pow_add_r in H by lia.
    set (a := 2 ^ Zpos n) in *.
    assert (H0 : quarter_pos mrs <= 4 * (K * a * a))
      by (replace (K * a * a) with (K * (a * a)) by ring; exact H).
    destruct (IH mrs (K * a) Hm H0) as [Hm2 H2].
    apply IH; [exact Hm2|exact H2].
  - apply shr_1_quarter; [exact Hm|]. change (2 ^ 1) with 2 in H. lia.
Qed.

Lemma shr_1_div (mrs : shr_record) :
  0 <= shr_m mrs -> shr_m (shr_1 mrs) = shr_m mrs / 2.
Proof.
  destruct mrs as [mz r s]. cbn [shr_m]. intros Hm.
  destruct mz as [|[p|p|]|p]; [| | | |lia]; cbn [shr_1 shr_m].
  - reflexivity.
  - apply Z.div_unique with 1; lia.
  - apply Z.div_unique with 0; lia.
  - reflexivity.
Qed.

Lemma iter_shr_1_div (n : positive) :
  forall mrs : shr_record,
  0 <= shr_m mrs ->
  shr_m (SpecFloat.iter_pos shr_1 n mrs) = shr_m mrs / 2 ^ Zpos n.
Proof.
  induction n as [n IH|n IH|]; intros mrs Hm; cbn [SpecFloat.iter_pos].
  - assert (H1 : 0 <= shr_m (shr_1 mrs)) by (apply shr_1_nonneg, Hm).
    assert (H2 : 0 <= shr_m (SpecFloat.iter_pos shr_1 n (shr_1 mrs)))
      by (apply iter_shr_1_nonneg, H1).
    assert (Hp : 0 < 2 ^ Zpos n) by (apply Z.pow_pos_nonneg; lia).
    rewrite IH, IH, shr_1_div by assumption.
    rewrite !Z.div_div by lia.
    f_equal. replace (Zpos n~1) with (1 + Zpos n + Zpos n) by lia.
    rewrite !Z.pow_add_r by lia. ring.
  - assert (H2 : 0 <= shr_m (SpecFloat.iter_pos shr_1 n mrs))
      by (apply iter_shr_1_nonneg, Hm).
    assert (Hp : 0 < 2 ^ Zpos n) by (apply Z.pow_pos_nonneg; lia).
    rewrite IH, IH by assumption.
    rewrite Z.div_div by lia.
    f_equal. replace (Zpos n~0) with (Zpos n + Zpos n) by lia.
    rewrite Z.pow_add_r by lia. ring.
  - apply shr_1_div, Hm.
Qed.

Lemma quarter_pos_of_loc (mz : Z) (l : location) :
  4 * mz <= quarter_pos (shr_record_of_loc mz l)
  /\ shr_m (shr_record_of_loc mz l) = mz.
Proof. destruct l as [|[]]; unfold quarter_pos; simpl; lia. Qed.

Lemma quarter_pos_exact (mz : Z) :
  quarter_pos (shr_record_of_loc mz loc_Exact) = 4 * mz.
Proof. unfold quarter_pos. simpl. lia. Qed.

Lemma canonical_exponent_ge (K : positive) (E : Z) :
  canonical_mantissa prec emax K E = true -> -149 <= E.
Proof.
  unfold canonical_mantissa. rewrite fexp32. intros H.
  apply Z.eqb_eq in H. lia.
Qed.

(** The exponent [shr_fexp] chooses for a value not above a canonical
    bound is not above the bound's exponent, and the shifted record is
    still not above the bound. *)
Lemma shr_fexp_bound (mz e : Z) (l : location) (K : positive) (E : Z) :
  0 <= mz -> e <= E -> canonical_mantissa prec emax K E = true ->
  quarter_pos (shr_record_of_loc mz l) <= 4 * (Zpos K * 2 ^ (E - e)) ->
  0 <= shr_m (fst (shr_fexp prec emax mz e l))
  /\ snd (shr_fexp prec emax mz e l) <= E
  /\ quarter_pos (fst (shr_fexp prec emax mz e l))
     <= 4 * (Zpos K * 2 ^ (E - snd (shr_fexp prec emax mz e l))).
Proof.
  intros Hm He Hcan H.
  pose proof (quarter_pos_of_loc mz l) as [Hq Hsm].
  pose proof (canonical_exponent_ge K E Hcan) as HE.
  unfold shr_fexp, shr.
  destruct (fexp prec emax (Zdigits2 mz + e) - e) as [|p|p] eqn:En;
    cbn [fst snd]; try (rewrite Hsm; auto).
  assert (He' : e + Zpos p <= E).
  { destruct mz as [|q|q]; [| |lia].
    - cbn [Zdigits2] in En. rewrite fexp32 in En. lia.
    - cbn [Zdigits2] in En.
      assert (Hdq : Zpos (digits2_pos q) + e <= Zpos (digits2_pos K) + E).
      { pose proof (digits2_pos_bounds q) as [Dl _].
        pose proof (digits2_pos_bounds K) as [_ Ku].
        assert (Hlt : 2 ^ (Zpos (digits2_pos q) - 1)
                      < 2 ^ (Zpos (digits2_pos K) + (E - e))).
        { rewrite Z.pow_add_r by lia.
          assert (0 < 2 ^ (E - e)) by (apply Z.pow_pos_nonneg; lia). nia. }
        apply Z.pow_lt_mono_r_iff in Hlt; lia. }
      apply fexp32_mono in Hdq.
      unfold canonical_mantissa in Hcan. apply Z.eqb_eq in Hcan. lia. }
  assert (Hpow : 2 ^ (E - e) = 2 ^ (E - (e + Zpos p)) * 2 ^ Zpos p).
  { rewrite <- Z.pow_add_r by lia. f_equal. lia. }
  rewrite Hpow in H.
  destruct (iter_shr_1_quarter p (shr_record_of_loc mz l)
              (Zpos K * 2 ^ (E - (e + Zpos p)))) as [H1 H2].
  - rewrite Hsm. exact Hm.
  - rewrite <- Z.mul_assoc. exact H.
  - auto.
Qed.

Lemma round_nearest_even_bound (mrs : shr_record) (K : Z) :
  0 <= shr_m mrs -> quarter_pos mrs <= 4 * K ->
  0 <= round_nearest_even (shr_m mrs) (loc_of_shr_record mrs) <= K.
Proof.
  destruct mrs as [mz r s]. unfold quarter_pos. cbn [shr_m shr_r shr_s].
  intros Hm H. destruct r, s; cbn [loc_of_shr_record round_nearest_even];
    try destruct (Z.even mz); lia.
Qed.

Lemma round_nearest_even_range (mz : Z) (l : location) :
  mz <= round_nearest_even mz l <= mz + 1.
Proof. destruct l as [|[]]; simpl; try destruct (Z.even mz); lia. Qed.

(** Rounding a magnitude that is not above a representable number
    gives zero or a finite number not above it. *)
Lemma binary_round_aux_bound (s : bool) (mx ex : Z) (lx : location)
  (K : positive) (E : Z) :
  0 <= mx -> ex <= E -> bounded prec emax K E = true ->
  quarter_pos (shr_record_of_loc mx lx) <= 4 * (Zpos K * 2 ^ (E - ex)) ->
  binary_round_aux prec emax s mx ex lx = S754_zero s
  \/ exists (m2 : positive) (e2 : Z),
       binary_round_aux prec emax s mx ex lx = S754_finite s m2 e2
       /\ e2 <= E /\ Zpos m2 <= Zpos K * 2 ^ (E - e2).
Proof.
  intros Hm He Hb H.
  unfold bounded in Hb. apply andb_true_iff in Hb. destruct Hb as [Hcan HbE].
  apply Z.leb_le in HbE.
  unfold binary_round_aux.
  pose proof (shr_fexp_bound mx ex lx K E Hm He Hcan H) as (H1 & H2 & H3).
  destruct (shr_fexp prec emax mx ex lx) as [mrs' e']. cbn [fst snd] in H1, H2, H3.
  pose proof (round_nearest_even_bound mrs' _ H1 H3) as [H4 H5].
  set (m1 := round_nearest_even (shr_m mrs') (loc_of_shr_record mrs')) in *.
  assert (H6 : quarter_pos (shr_record_of_loc m1 loc_Exact)
               <= 4 * (Zpos K * 2 ^ (E - e')))
    by (rewrite quarter_pos_exact; lia).
  pose proof (shr_fexp_bound m1 e' loc_Exact K E H4 H2 Hcan H6) as (H7 & H8 & H9).
  destruct (shr_fexp prec emax m1 e' loc_Exact) as [mrs'' e''].
  cbn [fst snd] in H7, H8, H9.
  assert (H10 : 4 * shr_m mrs'' <= quarter_pos mrs'')
    by (unfold quarter_pos; destruct (shr_r mrs''), (shr_s mrs''); lia).
  destruct (shr_m mrs'') as [|m2|m2] eqn:Em; [left; reflexivity| |lia].
  right. exists m2, e''.
  replace (e'' <=? emax - prec) with true by (symmetry; apply Z.leb_le; lia).
  split; [reflexivity|]. split; [exact H8|lia].
Qed.

End Binary32Bounds.

(** * The binary32 operations return canonical numbers *)
Section Binary32Valid.
Import B32.

Lemma shr_fexp_exact_spec (mz e : Z) :
  0 <= mz -> e <= fexp prec emax (Zdigits2 mz + e) ->
  shr_m (fst (shr_fexp prec emax mz e loc_Exact))
  = mz / 2 ^ (fexp prec emax (Zdigits2 mz + e) - e)
  /\ snd (shr_fexp prec emax mz e loc_Exact) = fexp prec emax (Zdigits2 mz + e).
Proof.
  intros Hm He. unfold shr_fexp, shr.
  destruct (fexp prec emax (Zdigits2 mz + e) - e) as [|p|p] eqn:En; [| |lia];
    cbn [fst snd].
  - cbn [shr_record_of_loc shr_m]. rewrite Z.pow_0_r, Z.div_1_r. split; lia.
  - rewrite iter_shr_1_div by exact Hm. cbn [shr_record_of_loc shr_m]. split; lia.
Qed.

(** The second [shr_fexp] of [binary_round_aux]: at most one more
    shift, when rounding carried into the next binade. *)
Lemma renormalize_valid (s : bool) (m1 c : Z) :
  0 <= m1 <= 2 ^ 24 -> -149 <= c -> (-149 < c -> 2 ^ 23 <= m1) ->
  valid_binary prec emax
    (let '(mrs'', e'') := shr_fexp prec emax m1 c loc_Exact in
     match shr_m mrs'' with
     | Z0 => S754_zero s
     | Zpos m => if (e'' <=? emax - prec)%Z then S754_finite s m e'' else S754_infinity s
     | Zneg _ => S754_nan
     end) = true.
Proof.
  intros [Hl Hu] Hc Hn.
  destruct m1 as [|q1|q1]; [| |lia].
  - unfold shr_fexp, shr. cbn [Zdigits2]. rewrite fexp32.
    destruct (Z.max (0 + c - 24) (-149) - c) eqn:En; [reflexivity|lia|reflexivity].
  - destruct (Z.eq_dec (Zpos q1) (2 ^ 24)) as [E24|N24].
    + assert (q1 = 16777216%positive) by (change (2 ^ 24) with 16777216 in E24; lia).
      subst q1. unfold shr_fexp, shr. change (Zdigits2 16777216) with 25.
      rewrite fexp32.
      replace (Z.max (25 + c - 24) (-149) - c) with 1 by lia.
      cbn [SpecFloat.iter_pos shr_record_of_loc shr_1 shr_m orb].
      destruct (c + 1 <=? emax - prec) eqn:Eb; [|reflexivity].
      cbn [valid_binary]. unfold bounded, canonical_mantissa.
      change (digits2_pos 8388608) with 24%positive.
      rewrite fexp32, Eb, andb_true_r.
      apply Z.eqb_eq. lia.
    + assert (Hd : Zpos (digits2_pos q1) <= 24) by (apply digits2_pos_le; lia).
      assert (Hfix : fexp prec emax (Zpos (digits2_pos q1) + c) = c).
      { rewrite fexp32. destruct (Z.eq_dec c (-149)) as [->|Hc']; [lia|].
        assert (Hd24 : Zpos (digits2_pos q1) = 24)
          by (apply digits2_pos_unique; change (24 - 1) with 23; lia).
        lia. }
      unfold shr_fexp, shr. cbn [Zdigits2]. rewrite Hfix, Z.sub_diag.
      cbn [shr_record_of_loc shr_m].
      destruct (c <=? emax - prec) eqn:Eb; [|reflexivity].
      cbn [valid_binary]. unfold bounded, canonical_mantissa.
      rewrite Hfix, Eb, Z.eqb_refl. reflexivity.
Qed.

Lemma binary_round_aux_valid (s : bool) (q : positive) (ex : Z) :
  ex <= fexp prec emax (Zpos (digits2_pos q) + ex) ->
  valid_binary prec emax (binary_round_aux prec emax s (Zpos q) ex loc_Exact) = true.
Proof.
  intros He. unfold binary_round_aux.
  assert (H0 : 0 <= Zpos q) by lia.
  pose proof (shr_fexp_exact_spec (Zpos q) ex H0 He) as [Hm He'].
  pose proof (shr_fexp_nonneg (Zpos q) ex loc_Exact H0) as Hnn.
  destruct (shr_fexp prec emax (Zpos q) ex loc_Exact) as [mrs' e'].
  cbn [fst snd] in Hm, He', Hnn. cbn [Zdigits2] in Hm, He'.
  set (d := Zpos (digits2_pos q)) in *.
  set (c := fexp prec emax (d + ex)) in *.
  pose proof (digits2_pos_bounds q) as [Dl Du]. fold d in Dl, Du.
  assert (Hc : c = Z.max (d + ex - 24) (-149)) by (unfold c; apply fexp32).
  assert (Hn1 : 0 <= c - ex) by lia.
  assert (Hp : 0 < 2 ^ (c - ex)) by (apply Z.pow_pos_nonneg; lia).
  assert (Hlt : shr_m mrs' < 2 ^ 24).
  { rewrite Hm. apply Z.div_lt_upper_bound; [exact Hp|].
    rewrite <- Z.pow_add_r by lia.
    assert (2 ^ d <= 2 ^ (c - ex + 24)) by (apply Z.pow_le_mono_r; lia). lia. }
  assert (Hge : -149 < c -> 2 ^ 23 <= shr_m mrs').
  { intros Hc'. rewrite Hm. apply Z.div_le_lower_bound; [exact Hp|].
    rewrite <- Z.pow_add_r by lia.
    replace (c - ex + 23) with (d - 1) by lia. exact Dl. }
  pose proof (round_nearest_even_range (shr_m mrs') (loc_of_shr_record mrs')) as [Rl Ru].
  subst e'. apply renormalize_valid; [lia|lia|].
  intros Hc'. specialize (Hge Hc'). lia.
Qed.

Lemma pos_iter_xO (q d : positive) :
  Zpos (Pos.iter xO q d) = Zpos q * 2 ^ Zpos d.
Proof.
  induction d as [|d IH] using Pos.peano_ind.
  - simpl. lia.
  - rewrite Pos.iter_succ, Pos2Z.inj_xO, IH, Pos2Z.inj_succ, Z.pow_succ_r by lia. ring.
Qed.

Lemma shl_align_spec (q : positive) (ex e' : Z) :
  snd (shl_align q ex e') = Z.min ex e'
  /\ Zpos (fst (shl_align q ex e')) = Zpos q * 2 ^ (ex - Z.min ex e')
  /\ Zpos (digits2_pos (fst (shl_align q ex e'))) + Z.min ex e'
     = Zpos (digits2_pos q) + ex.
Proof.
  unfold shl_align.
  destruct (e' - ex) as [|p|p] eqn:Ed; cbn [fst snd].
  - replace (Z.min ex e') with ex by lia. rewrite Z.sub_diag, Z.pow_0_r. lia.
  - replace (Z.min ex e') with ex by lia. rewrite Z.sub_diag, Z.pow_0_r. lia.
  - replace (Z.min ex e') with e' by lia.
    replace (ex - e') with (Zpos p) by lia.
    split; [reflexivity|]. split; [apply pos_iter_xO|].
    pose proof (digits2_pos_bounds q) as [Dl Du].
    assert (Hd : Zpos (digits2_pos (Pos.iter xO q p)) = Zpos (digits2_pos q) + Zpos p).
    { apply digits2_pos_unique. rewrite pos_iter_xO.
      replace (Zpos (digits2_pos q) + Zpos p - 1)
        with (Zpos (digits2_pos q) - 1 + Zpos p) by lia.
      rewrite !Z.pow_add_r by lia.
      assert (0 < 2 ^ Zpos p) by (apply Z.pow_pos_nonneg; lia). nia. }
    lia.
Qed.

Lemma binary_round_valid (s : bool) (q : positive) (ex : Z) :
  valid_binary prec emax (binary_round prec emax s q ex) = true.
Proof.
  unfold binary_round.
  pose proof (shl_align_spec q ex (fexp prec emax (Zpos (digits2_pos q) + ex)))
    as (He & _ & Hd).
  destruct (shl_align q ex _) as [mz ez]. cbn [fst snd] in He, Hd.
  apply binary_round_aux_valid. rewrite He, Hd. lia.
Qed.

Lemma binary_normalize_valid (z e : Z) (sz : bool) :
  valid_binary prec emax (binary_normalize prec emax z e sz) = true.
Proof. destruct z; [reflexivity| |]; apply binary_round_valid. Qed.

Lemma bounded_digits (m : positive) (e : Z) :
  bounded prec emax m e = true ->
  -149 <= e <= 104 /\ Zpos (digits2_pos m) <= 24
  /\ (-149 < e -> Zpos (digits2_pos m) = 24).
Proof.
  unfold bounded, canonical_mantissa. rewrite fexp32. intros H.
  apply andb_true_iff in H. destruct H as [H1 H2].
  apply Z.eqb_eq in H1. apply Z.leb_le in H2.
  change (emax - prec) with 104 in H2.
  pose proof (Pos2Z.is_pos (digits2_pos m)). lia.
Qed.

Lemma SFmul_valid (a b : spec_float) :
  valid_binary prec emax a = true -> valid_binary prec emax b = true ->
  valid_binary prec emax (SFmul prec emax a b) = true.
Proof.
  destruct a as [sa|sa| |sa ma ea], b as [sb|sb| |sb mb eb]; try reflexivity.
  cbn [valid_binary SFmul]. intros Ha Hb.
  apply bounded_digits in Ha. apply bounded_digits in Hb.
  destruct Ha as (Hea & Hda & Hna), Hb as (Heb & Hdb & Hnb).
  change (Zpos (ma * mb)) with (Zpos ma * Zpos mb).
  apply binary_round_aux_valid. rewrite fexp32.
  pose proof (digits2_pos_bounds ma) as [Al Au].
  pose proof (digits2_pos_bounds mb) as [Bl Bu].
  pose proof (digits2_pos_bounds (ma * mb)) as [_ Pu].
  rewrite Pos2Z.inj_mul in Pu.
  assert (Hd : Zpos (digits2_pos ma) + Zpos (digits2_pos mb) - 1
               <= Zpos (digits2_pos (ma * mb))).
  { assert (Hlt : 2 ^ (Zpos (digits2_pos ma) - 1 + (Zpos (digits2_pos mb) - 1))
                  < 2 ^ Zpos (digits2_pos (ma * mb))).
    { rewrite Z.pow_add_r by lia. nia. }
    apply Z.pow_lt_mono_r_iff in Hlt; lia. }
  pose proof (Pos2Z.is_pos (digits2_pos ma)).
  pose proof (Pos2Z.is_pos (digits2_pos mb)).
  lia.
Qed.

Lemma SFadd_valid (a b : spec_float) :
  valid_binary prec emax a = true -> valid_binary prec emax b = true ->
  valid_binary prec emax (SFadd prec emax a b) = true.
Proof.
  destruct a as [sa|sa| |sa ma ea], b as [sb|sb| |sb mb eb];
    try reflexivity; try (intros; assumption);
    try (destruct sa, sb; reflexivity).
  intros _ _. cbn [SFadd]. apply binary_normalize_valid.
Qed.

End Binary32Valid.

(** * Order and bounds of binary32 numbers *)
Section Binary32Order.
Import B32.

Lemma units_pos (m : positive) (e : Z) :
  -149 <= e -> 0 < units (S754_finite false m e).
Proof.
  intros He. cbn [units cond_Zopp].
  assert (0 < 2 ^ (e + 149)) by (apply Z.pow_pos_nonneg; lia). nia.
Qed.

(** On canonical positive numbers the comparison of [SpecFloat] is the
    comparison of the values. *)
Lemma SFcompare_units (ma mb : positive) (ea eb : Z) :
  bounded prec emax ma ea = true -> bounded prec emax mb eb = true ->
  SFcompare (S754_finite false ma ea) (S754_finite false mb eb)
  = Some (units (S754_finite false ma ea) ?= units (S754_finite false mb eb)).
Proof.
  intros Ha Hb. apply bounded_digits in Ha. apply bounded_digits in Hb.
  destruct Ha as (Hea & Hda & Hna), Hb as (Heb & Hdb & Hnb).
  pose proof (digits2_pos_bounds ma) as [Al Au].
  pose proof (digits2_pos_bounds mb) as [Bl Bu].
  assert (Au24 : Zpos ma < 2 ^ 24).
  { assert (2 ^ Zpos (digits2_pos ma) <= 2 ^ 24) by (apply Z.pow_le_mono_r; lia). lia. }
  assert (Bu24 : Zpos mb < 2 ^ 24).
  { assert (2 ^ Zpos (digits2_pos mb) <= 2 ^ 24) by (apply Z.pow_le_mono_r; lia). lia. }
  cbn [SFcompare units cond_Zopp]. f_equal.
  destruct (Z.compare_spec ea eb) as [Heq|Hlt|Hgt].
  - subst eb.
    assert (Hp : 0 < 2 ^ (ea + 149)) by (apply Z.pow_pos_nonneg; lia).
    rewrite <- Zmult_compare_compat_r by lia. reflexivity.
  - symmetry. apply Z.compare_lt_iff.
    assert (Hb24 : -149 < eb) by (clear - Hea Hlt; lia).
    rewrite (Hnb Hb24) in Bl. change (24 - 1) with 23 in Bl.
    replace (eb + 149) with (ea + 149 + (eb - ea)) by lia.
    rewrite (Z.pow_add_r 2 (ea + 149) (eb - ea)) by lia.
    assert (Hp : 0 < 2 ^ (ea + 149)) by (apply Z.pow_pos_nonneg; lia).
    assert (H2 : 2 ^ 1 <= 2 ^ (eb - ea)) by (apply Z.pow_le_mono_r; lia).
    change (2 ^ 1) with 2 in H2. change (2 ^ 24) with 16777216 in *.
    change (2 ^ 23) with 8388608 in *.
    assert (HX : 16777216 <= Zpos mb * 2 ^ (eb - ea)) by nia.
    replace (Zpos mb * (2 ^ (ea + 149) * 2 ^ (eb - ea)))
      with (Zpos mb * 2 ^ (eb - ea) * 2 ^ (ea + 149)) by ring.
    nia.
  - symmetry. apply Z.compare_gt_iff.
    assert (Ha24 : -149 < ea) by (clear - Heb Hgt; lia).
    rewrite (Hna Ha24) in Al. change (24 - 1) with 23 in Al.
    replace (ea + 149) with (eb + 149 + (ea - eb)) by lia.
    rewrite (Z.pow_add_r 2 (eb + 149) (ea - eb)) by lia.
    assert (Hp : 0 < 2 ^ (eb + 149)) by (apply Z.pow_pos_nonneg; lia).
    assert (H2 : 2 ^ 1 <= 2 ^ (ea - eb)) by (apply Z.pow_le_mono_r; lia).
    change (2 ^ 1) with 2 in H2. change (2 ^ 24) with 16777216 in *.
    change (2 ^ 23) with 8388608 in *.
    assert (HX : 16777216 <= Zpos ma * 2 ^ (ea - eb)) by nia.
    replace (Zpos ma * (2 ^ (eb + 149) * 2 ^ (ea - eb)))
      with (Zpos ma * 2 ^ (ea - eb) * 2 ^ (eb + 149)) by ring.
    nia.
Qed.

(** Rounding an exact magnitude that is not above a representable
    number. *)
Lemma binary_round_bound (s : bool) (q : positive) (ex : Z) (K : positive) (E : Z) :
  -149 <= ex -> bounded prec emax K E = true ->
  Zpos q * 2 ^ (ex + 149) <= Zpos K * 2 ^ (E + 149) ->
  binary_round prec emax s q ex = S754_zero s
  \/ exists (m2 : positive) (e2 : Z),
       binary_round prec emax s q ex = S754_finite s m2 e2
       /\ bounded prec emax m2 e2 = true
       /\ Zpos m2 * 2 ^ (e2 + 149) <= Zpos K * 2 ^ (E + 149).
Proof.
  intros Hex Hb Hle.
  pose proof (binary_round_valid s q ex) as Hv.
  pose proof (bounded_digits K E Hb) as (HE & HdK & _).
  assert (Hcan : fexp prec emax (Zpos (digits2_pos K) + E) = E).
  { unfold bounded in Hb. apply andb_true_iff in Hb. destruct Hb as [Hb _].
    apply Z.eqb_eq in Hb. exact Hb. }
  unfold binary_round in *.
  set (c := fexp prec emax (Zpos (digits2_pos q) + ex)) in *.
  pose proof (shl_align_spec q ex c) as (He & Hmz & Hd).
  destruct (shl_align q ex c) as [mz ez]. cbn [fst snd] in He, Hmz, Hd.
  assert (Hc149 : -149 <= c) by (unfold c; rewrite fexp32; lia).
  assert (HcE : c <= E).
  { rewrite <- Hcan. unfold c. apply fexp32_mono.
    pose proof (digits2_pos_bounds q) as [Ql _].
    pose proof (digits2_pos_bounds K) as [_ Ku].
    assert (Hlt : 2 ^ (Zpos (digits2_pos q) - 1 + (ex + 149))
                  < 2 ^ (Zpos (digits2_pos K) + (E + 149))).
    { rewrite (Z.pow_add_r 2 (Zpos (digits2_pos q) - 1) (ex + 149)) by lia.
      rewrite (Z.pow_add_r 2 (Zpos (digits2_pos K)) (E + 149)) by lia.
      assert (HP : 0 < 2 ^ (ex + 149)) by (apply Z.pow_pos_nonneg; lia).
      assert (HR : 0 < 2 ^ (E + 149)) by (apply Z.pow_pos_nonneg; lia).
      assert (H1 : 2 ^ (Zpos (digits2_pos q) - 1) * 2 ^ (ex + 149)
                   <= Zpos q * 2 ^ (ex + 149))
        by (apply Z.mul_le_mono_nonneg_r; lia).
      assert (H2 : Zpos K * 2 ^ (E + 149)
                   < 2 ^ Zpos (digits2_pos K) * 2 ^ (E + 149))
        by (apply Z.mul_lt_mono_pos_r; lia).
      lia. }
    apply Z.pow_lt_mono_r_iff in Hlt; lia. }
  assert (Hez : -149 <= ez <= E) by lia.
  assert (Hpos : quarter_pos (shr_record_of_loc (Zpos mz) loc_Exact)
                 <= 4 * (Zpos K * 2 ^ (E - ez))).
  { rewrite quarter_pos_exact, Hmz.
    assert (Hp : 0 < 2 ^ (ez + 149)) by (apply Z.pow_pos_nonneg; lia).
    assert (H1 : Zpos q * 2 ^ (ex - Z.min ex c) * 2 ^ (ez + 149)
                 <= Zpos K * 2 ^ (E - ez) * 2 ^ (ez + 149)).
    { rewrite <- !Z.mul_assoc, <- !Z.pow_add_r by lia.
      replace (ex - Z.min ex c + (ez + 149)) with (ex + 149) by lia.
      replace (E - ez + (ez + 149)) with (E + 149) by lia. exact Hle. }
    apply Z.mul_le_mono_pos_r in H1; [lia|exact Hp]. }
  destruct (binary_round_aux_bound s (Zpos mz) ez loc_Exact K E
              ltac:(lia) ltac:(lia) Hb Hpos) as [Hz|(m2 & e2 & Hr & He2 & Hm2)].
  - left. exact Hz.
  - right. exists m2, e2. rewrite Hr in Hv |- *. cbn [valid_binary] in Hv.
    split; [reflexivity|]. split; [exact Hv|].
    pose proof (bounded_digits m2 e2 Hv) as (He2' & _).
    assert (Hp : 0 < 2 ^ (e2 + 149)) by (apply Z.pow_pos_nonneg; lia).
    replace (E + 149) with (E - e2 + (e2 + 149)) by lia.
    rewrite (Z.pow_add_r 2 (E - e2) (e2 + 149)) by lia. nia.
Qed.

End Binary32Order.

(** * Subtraction and division between representable bounds *)
Section Binary32Ops.
Import B32.

Lemma units_finite (s : bool) (m : positive) (e : Z) :
  units (S754_finite s m e) = cond_Zopp s (Zpos m * 2 ^ (e + 149)).
Proof. reflexivity. Qed.

(** The exact value of a difference, read at the lower exponent. *)
Lemma aligned_units (m : positive) (e ez : Z) :
  -149 <= ez <= e ->
  Zpos (fst (shl_align m e ez)) * 2 ^ (ez + 149) = Zpos m * 2 ^ (e + 149).
Proof.
  intros He. pose proof (shl_align_spec m e ez) as (_ & Hm & _).
  rewrite Hm. replace (Z.min e ez) with ez by lia.
  rewrite <- Z.mul_assoc, <- Z.pow_add_r by lia. do 2 f_equal. lia.
Qed.

(** A difference that lies between two representable numbers rounds to
    a number between them. *)
Lemma SFsub_between (a b : spec_float) (L H : positive) (eL eH : Z) :
  finite_valid a -> finite_valid b ->
  bounded prec emax L eL = true -> bounded prec emax H eH = true ->
  - units (S754_finite false L eL) <= units a - units b
    <= units (S754_finite false H eH) ->
  finite_valid (SFsub prec emax a b)
  /\ - units (S754_finite false L eL) <= units (SFsub prec emax a b)
     <= units (S754_finite false H eH).
Proof.
  intros [Hfa Hva] [Hfb Hvb] HL HH Hr.
  pose proof (bounded_digits L eL HL) as (HeL & _).
  pose proof (bounded_digits H eH HH) as (HeH & _).
  pose proof (units_pos L eL ltac:(lia)) as HLp.
  pose proof (units_pos H eH ltac:(lia)) as HHp.
  assert (HLu : units (S754_finite false L eL) = Zpos L * 2 ^ (eL + 149)) by reflexivity.
  assert (HHu : units (S754_finite false H eH) = Zpos H * 2 ^ (eH + 149)) by reflexivity.
  set (uL := units (S754_finite false L eL)) in *.
  set (uH := units (S754_finite false H eH)) in *.
  destruct a as [sa|sa| |sa ma ea]; try discriminate;
    destruct b as [sb|sb| |sb mb eb]; try discriminate.
  - assert (E : SFsub prec emax (S754_zero sa) (S754_zero sb) = S754_zero sa
                \/ SFsub prec emax (S754_zero sa) (S754_zero sb) = S754_zero false)
      by (destruct sa, sb; auto).
    destruct E as [-> | ->]; (split; [split; reflexivity|cbn [units]; lia]).
  - cbn [SFsub]. split; [split; [reflexivity|exact Hvb]|].
    rewrite !units_finite in *. cbn [units] in Hr. destruct sb; cbn [negb cond_Zopp] in *; lia.
  - cbn [SFsub]. split; [split; [reflexivity|exact Hva]|].
    cbn [units] in Hr |- *. lia.
  - cbn [valid_binary] in Hva, Hvb.
    pose proof (bounded_digits ma ea Hva) as (Hea & _).
    pose proof (bounded_digits mb eb Hvb) as (Heb & _).
    cbn [SFsub]. set (ez := Z.min ea eb).
    set (N := cond_Zopp sa (Zpos (fst (shl_align ma ea ez)))
              - cond_Zopp sb (Zpos (fst (shl_align mb eb ez)))).
    pose proof (aligned_units ma ea ez ltac:(unfold ez; lia)) as Ha.
    pose proof (aligned_units mb eb ez ltac:(unfold ez; lia)) as Hb.
    assert (Hez : -149 <= ez) by (unfold ez; lia).
    assert (Hp : 0 < 2 ^ (ez + 149)) by (apply Z.pow_pos_nonneg; lia).
    assert (HN : N * 2 ^ (ez + 149)
                 = units (S754_finite sa ma ea) - units (S754_finite sb mb eb)).
    { unfold N. rewrite !units_finite, <- Ha, <- Hb.
      destruct sa, sb; cbn [cond_Zopp]; ring. }
    rewrite <- HN in Hr.
    pose proof (binary_normalize_valid N ez false) as Hv.
    destruct N as [|q|q] eqn:EN.
    + cbn [binary_normalize]. split; [split; reflexivity|cbn [units]; lia].
    + cbn [binary_normalize] in *.
      assert (Hle : Zpos q * 2 ^ (ez + 149) <= Zpos H * 2 ^ (eH + 149)) by lia.
      destruct (binary_round_bound false q ez H eH Hez HH Hle)
        as [Hz|(m2 & e2 & Hr2 & Hb2 & Hm2)].
      * rewrite Hz. split; [split; reflexivity|cbn [units]; lia].
      * rewrite Hr2. split; [split; [reflexivity|exact Hb2]|].
        pose proof (bounded_digits m2 e2 Hb2) as (He2 & _).
        pose proof (units_pos m2 e2 ltac:(lia)) as Hp2.
        rewrite !units_finite in *. cbn [cond_Zopp] in *. lia.
    + cbn [binary_normalize] in *.
      assert (Hle : Zpos q * 2 ^ (ez + 149) <= Zpos L * 2 ^ (eL + 149)) by lia.
      destruct (binary_round_bound true q ez L eL Hez HL Hle)
        as [Hz|(m2 & e2 & Hr2 & Hb2 & Hm2)].
      * rewrite Hz. split; [split; reflexivity|cbn [units]; lia].
      * rewrite Hr2. split; [split; [reflexivity|exact Hb2]|].
        pose proof (bounded_digits m2 e2 Hb2) as (He2 & _).
        pose proof (units_pos m2 e2 ltac:(lia)) as Hp2.
        rewrite !units_finite in *. cbn [cond_Zopp] in *. lia.
Qed.

End Binary32Ops.

Section Binary32Div.
Import B32.

Lemma quarter_pos_of_loc_le (mz : Z) (l : location) :
  quarter_pos (shr_record_of_loc mz l) <= 4 * mz + 3.
Proof. destruct l as [|[]]; unfold quarter_pos; simpl; lia. Qed.

Lemma new_location_zero (n : Z) : new_location n 0 = loc_Exact.
Proof.
  unfold new_location, new_location_even, new_location_odd.
  destruct (Z.even n); reflexivity.
Qed.

(** A magnitude not above one, with either sign, is in the domain of
    [acosf]. *)
Lemma in_unit_range_small (s : bool) (m2 : positive) (e2 : Z) :
  e2 <= -23 -> Zpos m2 <= 8388608 * 2 ^ (-23 - e2) ->
  in_unit_range (S754_finite s m2 e2) = true.
Proof.
  intros He Hm. unfold in_unit_range.
  change (of_Z (-1)) with (S754_finite true 8388608 (-23)).
  change (of_Z 1) with (S754_finite false 8388608 (-23)).
  change 8388608 with (Zpos 8388608) in Hm.
  generalize dependent 8388608%positive. intros k Hm.
  unfold SFleb. cbn [SFcompare].
  destruct (Z.compare_spec e2 (-23)) as [Heq|Hlt|Hgt]; [| |lia].
  - subst e2. change (2 ^ (-23 - -23)) with 1 in Hm.
    change (-23 ?= -23) with Eq. cbv iota.
    change (Pos.compare_cont Eq m2 k) with (Pos.compare m2 k).
    change (Pos.compare_cont Eq k m2) with (Pos.compare k m2).
    destruct s.
    + destruct (Pos.compare_spec k m2) as [H|H|H]; try reflexivity. lia.
    + destruct (Pos.compare_spec m2 k) as [H|H|H]; try reflexivity. lia.
  - assert (Hgt : (-23 ?= e2) = Gt) by (apply Z.compare_gt_iff; lia).
    rewrite Hgt. destruct s; reflexivity.
Qed.

(** The quotient of a number by a positive number that is not below it
    in magnitude lies in [-1, 1]. *)
Lemma SFdiv_in_unit_range (a : spec_float) (D : positive) (eD : Z) :
  finite_valid a -> bounded prec emax D eD = true ->
  - units (S754_finite false D eD) <= units a <= units (S754_finite false D eD) ->
  in_unit_range (SFdiv prec emax a (S754_finite false D eD)) = true.
Proof.
  intros [Hfa Hva] HD Hr.
  destruct a as [sa|sa| |s m e]; try discriminate.
  { destruct sa; reflexivity. }
  cbn [valid_binary] in Hva.
  pose proof (bounded_digits m e Hva) as (He & _).
  pose proof (bounded_digits D eD HD) as (HeD & _).
  assert (Hle : Zpos m * 2 ^ (e + 149) <= Zpos D * 2 ^ (eD + 149)).
  { rewrite !units_finite in Hr. destruct s; cbn [cond_Zopp] in Hr; lia. }
  clear Hr.
  cbn [SFdiv]. unfold SFdiv_core_binary. cbn [Zdigits2].
  set (d1 := Zpos (digits2_pos m)). set (d2 := Zpos (digits2_pos D)).
  set (e' := Z.min (fexp prec emax (d1 + e - (d2 + eD))) (e - eD)).
  assert (Hdig : d1 + e <= d2 + eD).
  { pose proof (digits2_pos_bounds m) as [Ml _].
    pose proof (digits2_pos_bounds D) as [_ Du].
    fold d1 in Ml. fold d2 in Du.
    assert (HP : 0 < 2 ^ (e + 149)) by (apply Z.pow_pos_nonneg; lia).
    assert (HR : 0 < 2 ^ (eD + 149)) by (apply Z.pow_pos_nonneg; lia).
    assert (Hlt : 2 ^ (d1 - 1 + (e + 149)) < 2 ^ (d2 + (eD + 149))).
    { rewrite (Z.pow_add_r 2 (d1 - 1) (e + 149)) by (unfold d1; lia).
      rewrite (Z.pow_add_r 2 d2 (eD + 149)) by (unfold d2; lia).
      assert (H1 : 2 ^ (d1 - 1) * 2 ^ (e + 149) <= Zpos m * 2 ^ (e + 149))
        by (apply Z.mul_le_mono_nonneg_r; lia).
      assert (H2 : Zpos D * 2 ^ (eD + 149) < 2 ^ d2 * 2 ^ (eD + 149))
        by (apply Z.mul_lt_mono_pos_r; lia).
      lia. }
    apply Z.pow_lt_mono_r_iff in Hlt; unfold d1, d2 in *; lia. }
  assert (He' : e' <= -24).
  { unfold e'. rewrite fexp32. lia. }
  assert (Hs : 0 <= e - eD - e') by (unfold e'; lia).
  set (m' := match e - eD - e' with
             | Z0 => Zpos m
             | Zpos _ => Z.shiftl (Zpos m) (e - eD - e')
             | Zneg _ => 0
             end).
  assert (Hm' : m' = Zpos m * 2 ^ (e - eD - e')).
  { unfold m'. destruct (e - eD - e') as [|p|p] eqn:Es; [| |lia].
    - rewrite Z.pow_0_r. lia.
    - apply Z.shiftl_mul_pow2. lia. }
  set (T := 2 ^ (- e')).
  assert (HT : 0 < T) by (apply Z.pow_pos_nonneg; lia).
  assert (Hm'T : m' <= Zpos D * T).
  { assert (HR : 0 < 2 ^ (eD + 149)) by (apply Z.pow_pos_nonneg; lia).
    assert (H1 : m' * 2 ^ (eD + 149) <= Zpos D * T * 2 ^ (eD + 149)).
    { rewrite Hm'. unfold T.
      rewrite <- Z.mul_assoc, <- Z.pow_add_r by lia.
      replace (e - eD - e' + (eD + 149)) with (e + 149 + - e') by lia.
      rewrite (Z.pow_add_r 2 (e + 149) (- e')) by lia.
      assert (H2 : Zpos m * 2 ^ (e + 149) * 2 ^ (- e')
                   <= Zpos D * 2 ^ (eD + 149) * 2 ^ (- e'))
        by (apply Z.mul_le_mono_nonneg_r; lia).
      lia. }
    apply Z.mul_le_mono_pos_r in H1; [exact H1|exact HR]. }
  assert (Hm'0 : 0 <= m').
  { rewrite Hm'. assert (0 < 2 ^ (e - eD - e')) by (apply Z.pow_pos_nonneg; lia). lia. }
  pose proof (Z_div_mod m' (Zpos D) ltac:(lia)) as Hdm.
  destruct (Z.div_eucl m' (Zpos D)) as [q r]. destruct Hdm as [Hdm Hrr].
  assert (Hq0 : 0 <= q) by nia.
  assert (HqT : q <= T) by nia.
  assert (Hpos : quarter_pos (shr_record_of_loc q (new_location (Zpos D) r))
                 <= 4 * (8388608 * 2 ^ (-23 - e'))).
  { replace (8388608 * 2 ^ (-23 - e')) with T.
    2:{ unfold T. change 8388608 with (2 ^ 23).
        rewrite <- Z.pow_add_r by lia. f_equal. lia. }
    destruct (Z.eq_dec r 0) as [->|Hr0].
    - rewrite new_location_zero, quarter_pos_exact. lia.
    - pose proof (quarter_pos_of_loc_le q (new_location (Zpos D) r)).
      assert (q < T) by nia. lia. }
  destruct (binary_round_aux_bound (xorb s false) q e' (new_location (Zpos D) r)
              8388608 (-23) Hq0 ltac:(lia) eq_refl Hpos)
    as [Hz|(m2 & e2 & Hr2 & He2 & Hm2)].
  - rewrite Hz. destruct (xorb s false); reflexivity.
  - rewrite Hr2. apply in_unit_range_small; assumption.
Qed.

End Binary32Div.

(** * The law-of-cosines ratio on the annulus *)
Section Binary32Annulus.
Import B32.
Context {m : Libm}.

Lemma r_sq_valid (x y : F) :
  valid_binary prec emax x = true -> valid_binary prec emax y = true ->
  valid_binary prec emax (r_sq_of x y) = true.
Proof.
  intros Hx Hy. unfold r_sq_of. cbn [fadd fmul arith].
  apply SFadd_valid; apply SFmul_valid; assumption.
Qed.

(** A number between [(l1-l2)^2] and [(l1+l2)^2], as the code compares
    them, has its exact value between the two. *)
Lemma annulus_units (r : F) :
  valid_binary prec emax r = true -> isnan r = false ->
  fgt r ((SCARA_L1 + SCARA_L2) * (SCARA_L1 + SCARA_L2))%flt = false ->
  fgt ((SCARA_L1 - SCARA_L2) * (SCARA_L1 - SCARA_L2))%flt r = false ->
  finite_valid r /\ 2500 * 2 ^ 149 <= units r <= 902500 * 2 ^ 149.
Proof.
  intros Hv Hn Hhi Hlo.
  change ((SCARA_L1 + SCARA_L2) * (SCARA_L1 + SCARA_L2))%flt
    with (S754_finite false 14440000 (-4)) in Hhi.
  change ((SCARA_L1 - SCARA_L2) * (SCARA_L1 - SCARA_L2))%flt
    with (S754_finite false 10240000 (-12)) in Hlo.
  cbn [fgt arith] in Hhi, Hlo. unfold SFltb in Hhi, Hlo.
  destruct r as [s|s| |s mr er]; try discriminate.
  - destruct s; discriminate.
  - destruct s; [discriminate|].
    cbn [valid_binary] in Hv.
    rewrite (SFcompare_units 14440000 mr (-4) er eq_refl Hv) in Hhi.
    rewrite (SFcompare_units mr 10240000 er (-12) Hv eq_refl) in Hlo.
    assert (E1 : units (S754_finite false 14440000 (-4)) = 902500 * 2 ^ 149) by reflexivity.
    assert (E2 : units (S754_finite false 10240000 (-12)) = 2500 * 2 ^ 149) by reflexivity.
    rewrite E1 in Hhi. rewrite E2 in Hlo.
    split; [split; [reflexivity|exact Hv]|].
    set (U := 2 ^ 149) in *. set (ur := units (S754_finite false mr er)) in *.
    destruct (Z.compare_spec (902500 * U) ur); try discriminate;
      destruct (Z.compare_spec ur (2500 * U)); try discriminate; lia.
Qed.

(** On that annulus the ratio stays in [-1, 1]: no rounding of the two
    subtractions and the division takes it out. *)
Lemma cos_q12_in_unit_range (r : F) :
  valid_binary prec emax r = true -> isnan r = false ->
  fgt r ((SCARA_L1 + SCARA_L2) * (SCARA_L1 + SCARA_L2))%flt = false ->
  fgt ((SCARA_L1 - SCARA_L2) * (SCARA_L1 - SCARA_L2))%flt r = false ->
  in_unit_range (cos_q12_of r) = true.
Proof.
  intros Hv Hn Hhi Hlo.
  destruct (annulus_units r Hv Hn Hhi Hlo) as [Hfr Hr].
  change (cos_q12_of r)
    with (SFdiv prec emax
            (SFsub prec emax
               (SFsub prec emax r (S754_finite false 16000000 (-6)))
               (S754_finite false 12960000 (-6)))
            (S754_finite false 14400000 (-5))).
  assert (EA : units (S754_finite false 16000000 (-6)) = 250000 * 2 ^ 149) by reflexivity.
  assert (EB : units (S754_finite false 12960000 (-6)) = 202500 * 2 ^ 149) by reflexivity.
  assert (ED : units (S754_finite false 14400000 (-5)) = 450000 * 2 ^ 149) by reflexivity.
  assert (EL : units (S754_finite false 15840000 (-6)) = 247500 * 2 ^ 149) by reflexivity.
  assert (EH : units (S754_finite false 10440000 (-4)) = 652500 * 2 ^ 149) by reflexivity.
  assert (FA : finite_valid (S754_finite false 16000000 (-6))) by (split; reflexivity).
  assert (FB : finite_valid (S754_finite false 12960000 (-6))) by (split; reflexivity).
  destruct (SFsub_between r (S754_finite false 16000000 (-6))
              15840000 10440000 (-6) (-4) Hfr FA eq_refl eq_refl) as [F1 R1].
  { rewrite EA, EL, EH. set (U := 2 ^ 149) in *. lia. }
  set (v1 := SFsub prec emax r (S754_finite false 16000000 (-6))) in *.
  destruct (SFsub_between v1 (S754_finite false 12960000 (-6))
              14400000 14400000 (-5) (-5) F1 FB eq_refl eq_refl) as [F2 R2].
  { rewrite EB, ED. rewrite EL, EH in R1. set (U := 2 ^ 149) in *. lia. }
  apply SFdiv_in_unit_range; [exact F2|reflexivity|exact R2].
Qed.

End Binary32Annulus.

(** * Binary32: segment counts and reachability *)
Section Binary32.
Import B32.
Context {m : Libm} {B : Build}.

Lemma uint_fast16_holds (z : Z) :
  (16 <= UINT_FAST16_BITS)%Z -> (0 <= z < 65536)%Z ->
  wrap_unsigned UINT_FAST16_BITS z = z.
Proof.
  intros Hw Hz. apply wrap_unsigned_small.
  assert (2 ^ 16 <= 2 ^ UINT_FAST16_BITS)%Z by (apply Z.pow_le_mono_r; lia).
  change (2 ^ 16)%Z with 65536%Z in *. lia.
Qed.

(** A session that does not segment has two iterations left after
    [init]. *)
Lemma init_without_segments (target position : vec) (rapid : bool) (s : statics) :
  (16 <= UINT_FAST16_BITS)%Z ->
  init_do_segments target position rapid s = false ->
  let s0 := snd (scara_segment_line target position rapid true s) in
  iterations s0 = 2%Z /\ do_segments s0 = false /\ yields_segments 1 s0.
Proof.
  intros Hw Hno s0.
  destruct (segment_line_result target position rapid true s)
    as (_ & Hj & Hd & Hi & _).
  fold s0 in Hj, Hd, Hi. cbv zeta in Hj, Hd, Hi.
  destruct (init_fields target position rapid s) as (Hj1 & _).
  rewrite init_iterations in Hi. rewrite init_do_segments_eq in Hd.
  unfold init_count in Hi. rewrite Hno in Hi.
  rewrite uint_fast16_holds in Hi by lia.
  assert (Hlt : (iterations s0 < 2 ^ UINT_FAST16_BITS)%Z).
  { rewrite Hi. assert (2 ^ 16 <= 2 ^ UINT_FAST16_BITS)%Z by (apply Z.pow_le_mono_r; lia).
    change (2 ^ 16)%Z with 65536%Z in *. lia. }
  split; [assumption|]. split; [congruence|].
  apply run_next_yields; [rewrite Hi; reflexivity|assumption|congruence].
Qed.

(** C4: a non-rapid move whose planar distance is exactly 150 mm gives
    [iterations = 75 + 1 = 76] after [init], and then 75 calls that
    return a waypoint followed by one that returns the termination
    signal; a move of planar distance 1.5 mm yields exactly one real
    segment whatever the rapid flag; a rapid move yields exactly one
    real segment whatever the distance. *)
Theorem segment_counts :
  (16 <= UINT_FAST16_BITS)%Z ->
  (forall (target position : vec) (s : statics),
     init_distance target position s = of_int 150 ->
     let s0 := snd (scara_segment_line target position false true s) in
     init_count target position false s = 75%Z
     /\ iterations s0 = 76%Z /\ do_segments s0 = true /\ yields_segments 75 s0)
  /\ (forall (target position : vec) (rapid : bool) (s : statics),
     init_distance target position s = (of_int 3 / of_int 2)%flt ->
     yields_segments 1 (snd (scara_segment_line target position rapid true s)))
  /\ (forall (target position : vec) (s : statics),
     yields_segments 1 (snd (scara_segment_line target position true true s))).
Proof.
  intros Hw. split; [|split].
  - intros target position s Hd s0.
    destruct (segment_line_result target position false true s)
      as (_ & Hj & Hds & Hi & _).
    fold s0 in Hj, Hds, Hi. cbv zeta in Hj, Hds, Hi.
    destruct (init_fields target position false s) as (Hj1 & _).
    rewrite init_iterations in Hi. rewrite init_do_segments_eq in Hds.
    assert (Hseg : init_do_segments target position false s = true).
    { unfold init_do_segments. rewrite Hd. vm_compute. reflexivity. }
    assert (Hcnt : init_count target position false s = 75%Z).
    { unfold init_count. rewrite Hseg, Hd. unfold to_uint_fast16.
      replace (ftrunc (ceilf (of_int 150 / MAX_SEG_LENGTH_MM)%flt)) with 75%Z
        by (vm_compute; reflexivity).
      apply uint_fast16_holds; lia. }
    rewrite Hcnt in Hi. change (75 + 1)%Z with 76%Z in Hi.
    rewrite uint_fast16_holds in Hi by lia.
    assert (Hlt : (iterations s0 < 2 ^ UINT_FAST16_BITS)%Z).
    { rewrite Hi. assert (2 ^ 16 <= 2 ^ UINT_FAST16_BITS)%Z by (apply Z.pow_le_mono_r; lia).
      change (2 ^ 16)%Z with 65536%Z in *. lia. }
    split; [assumption|]. split; [assumption|]. split; [congruence|].
    apply run_next_yields; [rewrite Hi; reflexivity|assumption|congruence].
  - intros target position rapid s Hd.
    apply init_without_segments; [assumption|].
    unfold init_do_segments. rewrite Hd.
    replace (fgt (of_int 3 / of_int 2)%flt MAX_SEG_LENGTH_MM) with false
      by (vm_compute; reflexivity).
    apply andb_false_r.
  - intros target position s.
    apply init_without_segments; [assumption|reflexivity].
Qed.

(** In range means a number. *)
Lemma ratio_in_range_inputs (x y : F) :
  in_unit_range (cos_q12_of (r_sq_of x y)) = true ->
  is_nan x = false /\ is_nan y = false.
Proof.
  intros Hc. apply in_unit_range_not_nan in Hc.
  unfold cos_q12_of, r_sq_of in Hc. cbn [fdiv fsub fadd fmul arith] in Hc.
  split; apply not_nan_true_false; intros Hn;
    rewrite SFdiv_nan in Hc; try discriminate; left;
    apply SFsub_nan; left; apply SFsub_nan; left; apply SFadd_nan.
  - left. apply SFmul_nan. by left.
  - right. apply SFmul_nan. by left.
Qed.

(** [xy_to_q] signals Unreachable (a NaN angle) exactly when
    [x*x + y*y] exceeds [(l1+l2)^2] or the law-of-cosines ratio, which
    is not clamped, lies outside [-1, 1]. *)
Lemma unreachable_iff (x y : F) :
  libm_regular_at x y ->
  unreachable x y = true <->
  (fgt (r_sq_of x y) ((SCARA_L1 + SCARA_L2) * (SCARA_L1 + SCARA_L2))%flt = true
   \/ in_unit_range (cos_q12_of (r_sq_of x y)) = false).
Proof.
  intros (Hdom & Hran & Hsin & Hat1 & Hat2).
  unfold unreachable, xy_to_q. cbn [machine l1 l2].
  destruct (fgt (r_sq_of x y) _) eqn:Hgt.
  { cbn. split; auto. }
  cbv zeta. cbn [q1 q2].
  set (c := cos_q12_of (r_sq_of x y)) in *.
  destruct (in_unit_range c) eqn:Hin.
  - split; [|intros [H|H]; discriminate].
    intros Hun. exfalso.
    destruct (ratio_in_range_inputs x y Hin) as [Hx Hy].
    specialize (Hran eq_refl). specialize (Hsin Hran). specialize (Hat1 Hy Hx).
    pose proof (in_unit_range_not_nan c Hin) as Hc.
    assert (Hby : is_nan (SFmul prec emax (of_Z 450) (m_sinf (m_acosf c))) = false)
      by (apply SFmul_finite_not_nan; [reflexivity|exact Hsin]).
    assert (Hbx : is_nan (SFadd prec emax (of_Z 500) (SFmul prec emax (of_Z 450) c)) = false).
    { apply (SFadd_finite_not_nan (SFmul prec emax (of_Z 450) c) (of_Z 500));
        [|reflexivity].
      apply (SFmul_const_not_nan c false 14745600 (-15) Hc). }
    specialize (Hat2 Hby Hbx).
    set (beta := m_atan2f _ _) in Hat2.
    set (q1r := SFadd prec emax (m_atan2f y x) beta).
    assert (Hq1r : is_nan q1r = false)
      by (apply (SFadd_finite_not_nan (m_atan2f y x) beta);
          [apply is_finite_not_nan, Hat1|exact Hat2]).
    assert (Hq1 : is_nan (SFmul prec emax q1r DEGRAD32) = false)
      by apply (SFmul_const_not_nan q1r false 15019745 (-18) Hq1r).
    set (q2r := SFadd prec emax q1r (SFopp (m_acosf c))).
    assert (Hq2r : is_nan q2r = false)
      by (apply (SFadd_finite_not_nan q1r (SFopp (m_acosf c)) Hq1r);
          by rewrite SFopp_finite).
    assert (Hq2 : is_nan (SFmul prec emax q2r DEGRAD32) = false)
      by apply (SFmul_const_not_nan q2r false 15019745 (-18) Hq2r).
    change (is_nan (SFmul prec emax q1r DEGRAD32)
            || is_nan (SFmul prec emax q2r DEGRAD32) = true) in Hun.
    rewrite Hq1, Hq2 in Hun. discriminate.
  - split; [intros _; by right|]. intros _.
    specialize (Hdom eq_refl).
    apply orb_true_iff. right.
    change (is_nan (SFmul prec emax
              (SFadd prec emax
                 (SFadd prec emax (m_atan2f y x)
                    (m_atan2f (SFmul prec emax (of_Z 450) (m_sinf (m_acosf c)))
                       (SFadd prec emax (of_Z 500) (SFmul prec emax (of_Z 450) c))))
                 (SFopp (m_acosf c)))
              DEGRAD32) = true).
    apply SFmul_nan. left. apply SFadd_nan. right.
    destruct (m_acosf c); try discriminate. reflexivity.
Qed.

(** The amended C2: [xy_to_q] signals Unreachable (a NaN angle) exactly
    when [x*x + y*y], as computed, exceeds [(l1+l2)^2] or the
    law-of-cosines ratio, which is not clamped, lies outside [-1, 1].
    So it never signals Unreachable when the computed [x*x + y*y] is a
    number from [(l1-l2)^2] to [(l1+l2)^2], both included: no rounding
    of the ratio takes it out of [-1, 1] there.  The libm calls made on
    the way are assumed to behave as C prescribes ([libm_regular_at]),
    and [x] and [y] to be binary32 numbers. *)
Theorem unreachable_exactly_and_annulus_accepted (x y : F) :
  libm_regular_at x y ->
  valid_binary prec emax x = true -> valid_binary prec emax y = true ->
  let r := r_sq_of x y in
  let outer := ((SCARA_L1 + SCARA_L2) * (SCARA_L1 + SCARA_L2))%flt in
  let inner := ((SCARA_L1 - SCARA_L2) * (SCARA_L1 - SCARA_L2))%flt in
  (unreachable x y = true
   <-> (fgt r outer = true \/ in_unit_range (cos_q12_of r) = false))
  /\ (isnan r = false -> fgt r outer = false -> fgt inner r = false ->
      unreachable x y = false).
Proof.
  intros Hreg Hx Hy r outer inner.
  pose proof (unreachable_iff x y Hreg) as Hiff. fold r outer in Hiff.
  split; [exact Hiff|].
  intros Hn Hhi Hlo.
  pose proof (cos_q12_in_unit_range r (r_sq_valid x y Hx Hy) Hn Hhi Hlo) as Hin.
  destruct (unreachable x y) eqn:Hun; [|reflexivity].
  destruct (proj1 Hiff eq_refl) as [H|H]; congruence.
Qed.

End Binary32.

(** * Concrete runs in binary32 *)
Section Runs.
Import B32 Example.
#[local] Existing Instance RefLibm.libm.
#[local] Existing Instance build3.

(** The stretched arm is at (950, 0), 150 mm from [target_150] and
    1.5 mm from [target_1_5]. *)
Example distance_150 : init_distance target_150 joints_stretched start = of_int 150.
Proof. vm_compute. reflexivity. Qed.

Example distance_1_5 :
  init_distance target_1_5 joints_stretched start = (of_int 3 / of_int 2)%flt.
Proof. vm_compute. reflexivity. Qed.

(** The concrete scenario of the specification: from the joint angles
    (0, -90) a rapid move to (800, 0) is one real segment, and its
    waypoint is (30.75.., -34.62..) degrees. *)
Example rapid_move_to_800 :
  fst (scara_segment_line target_150 joints_home true true start)
  = Some [S754_finite false 16123700 (-19); S754_finite true 9075993 (-18); fl 5]
  /\ unreachable (fl 800) (fl 0) = false.
Proof. vm_compute. split; reflexivity. Qed.

(** The joint pair (0, 90) degrees in binary32: its forward image is
    (499.99997, 450), and the inverse transform of that point is the
    elbow-up pair (83.97.., -6.02..) degrees. *)
Example elbow_down_pair_binary32 :
  x (q_to_xy (fl 0) (fl 90)) = S754_finite false 16383999 (-15)
  /\ y (q_to_xy (fl 0) (fl 90)) = fl 450
  /\ q1 (xy_to_q (S754_finite false 16383999 (-15)) (fl 450))
     = S754_finite false 11006697 (-17)
  /\ q2 (xy_to_q (S754_finite false 16383999 (-15)) (fl 450))
     = S754_finite true 12636541 (-21).
Proof. vm_compute. repeat split; reflexivity. Qed.

(** Rounding alone moves the angles of an almost stretched arm: the
    elbow-up pair (10, 9.99) degrees comes back as (9.9952.., 9.9952..),
    about five thousandths of a degree off, because the ratio
    [cos_q12] rounds to 1.  The fully stretched pair (45, 45) has a
    forward image whose [x*x + y*y] rounds above [(l1+l2)^2]. *)
Example stretched_pairs_binary32 :
  q1 (xy_to_q (x (q_to_xy (fl 10) (fl 999 / fl 100)%flt))
              (y (q_to_xy (fl 10) (fl 999 / fl 100)%flt)))
  = S754_finite false 10480793 (-20)
  /\ q2 (xy_to_q (x (q_to_xy (fl 10) (fl 999 / fl 100)%flt))
                 (y (q_to_xy (fl 10) (fl 999 / fl 100)%flt)))
     = S754_finite false 10480793 (-20)
  /\ (fl 999 / fl 100)%flt = S754_finite false 10475274 (-20)
  /\ unreachable (x (q_to_xy (fl 45) (fl 45))) (y (q_to_xy (fl 45) (fl 45))) = true.
Proof. vm_compute. repeat split; reflexivity. Qed.

(** Witness of [segment_counts]. *)
Lemma segment_counts_run :
  (16 <= UINT_FAST16_BITS)%Z
  /\ iterations (snd (scara_segment_line target_150 joints_stretched false true start)) = 76%Z
  /\ yields_segments 75 (snd (scara_segment_line target_150 joints_stretched false true start))
  /\ yields_segments 1 (snd (scara_segment_line target_1_5 joints_stretched false true start))
  /\ yields_segments 1 (snd (scara_segment_line target_150 joints_stretched true true start)).
Proof.
  assert (Hw : (16 <= UINT_FAST16_BITS)%Z) by (vm_compute; discriminate).
  destruct (segment_counts (m := RefLibm.libm) (B := build3) Hw) as (H150 & H15 & Hrapid).
  split; [exact Hw|].
  pose proof (H150 target_150 joints_stretched start distance_150) as H.
  cbv zeta in H. destruct H as (_ & Hi & _ & Hy).
  split; [exact Hi|]. split; [exact Hy|].
  split; [exact (H15 target_1_5 joints_stretched false start distance_1_5)|].
  exact (Hrapid target_150 joints_stretched start).
Defined.

(** Witness of [from_cartesian_unreachable_writes_passthrough]. *)
Lemma from_cartesian_unreachable_run :
  unreachable (target_far !!! A_MOTOR) (target_far !!! B_MOTOR) = true
  /\ buffer (scara_transform_from_cartesian [fl 1; fl 2; fl 3] target_far)
     = [fl 1; fl 2; fl 5].
Proof.
  assert (HN : (3 <= N_AXIS)%nat) by (vm_compute; lia).
  assert (Hlen : length [fl 1; fl 2; fl 3] = N_AXIS) by reflexivity.
  assert (Hun : unreachable (target_far !!! A_MOTOR) (target_far !!! B_MOTOR) = true)
    by (vm_compute; reflexivity).
  split; [exact Hun|].
  pose proof (from_cartesian_unreachable_writes_passthrough (A := arith32)
                [fl 1; fl 2; fl 3] target_far HN Hlen Hun) as H.
  cbv zeta in H. destruct H as (_ & _ & Hp & H0 & H1).
  apply list_eq. intros [|[|[|i]]].
  - exact H0.
  - exact H1.
  - apply (Hp 2%nat). vm_compute. lia.
  - reflexivity.
Defined.

(** Witness of [xy_to_q_elbow_up_absolute], at (800, 0). *)
Lemma xy_to_q_elbow_up_absolute_run :
  fgt (fl 800 * fl 800 + fl 0 * fl 0)%flt
      ((SCARA_L1 + SCARA_L2) * (SCARA_L1 + SCARA_L2))%flt = false
  /\ q1 (xy_to_q (fl 800) (fl 0)) = S754_finite false 16123700 (-19)
  /\ q2 (xy_to_q (fl 800) (fl 0)) = S754_finite true 9075993 (-18).
Proof.
  assert (H : fgt (fl 800 * fl 800 + fl 0 * fl 0)%flt
                ((SCARA_L1 + SCARA_L2) * (SCARA_L1 + SCARA_L2))%flt = false)
    by (vm_compute; reflexivity).
  split; [exact H|].
  pose proof (xy_to_q_elbow_up_absolute (A := arith32) (fl 800) (fl 0) H) as E.
  cbv zeta in E.
  split; (etransitivity; [exact (f_equal _ E)|]; vm_compute; reflexivity).
Defined.

(** Witness of [segmenter_ignores_unreachable]: a rapid move to
    (2000, 0) from the home angles.  Both calls return the buffer, which
    still holds the cartesian position (499.99997, -450) that [init]
    computed, and the alarm is raised twice. *)
Lemma segmenter_ignores_unreachable_run :
  unreachable (target_far !!! A_MOTOR) (target_far !!! B_MOTOR) = true
  /\ fst (scara_segment_line target_far joints_home true true start)
     = Some [S754_finite false 16383999 (-15); fl (-450); fl 5]
  /\ fst (next (snd (scara_segment_line target_far joints_home true true start)))
     = Some [S754_finite false 16383999 (-15); fl (-450); fl 5]
  /\ alarms (snd (next (snd (scara_segment_line target_far joints_home true true start))))
     = [Alarm_SoftLimit; Alarm_SoftLimit].
Proof.
  assert (HN : (3 <= N_AXIS)%nat) by (vm_compute; lia).
  assert (Hw : (16 <= UINT_FAST16_BITS)%Z) by (vm_compute; discriminate).
  assert (Hun : unreachable (target_far !!! A_MOTOR) (target_far !!! B_MOTOR) = true)
    by (vm_compute; reflexivity).
  pose proof (segmenter_ignores_unreachable (A := arith32) target_far joints_home
                true start HN Hw eq_refl Hun) as H.
  cbv zeta in H. destruct H as (_ & _ & _ & Ha).
  split; [exact Hun|].
  split; [vm_compute; reflexivity|].
  split; [vm_compute; reflexivity|].
  exact Ha.
Defined.

(** The counterexample to C2: the origin lies inside the disc of radius
    [l1 + l2] (and inside the one of radius [l1 - l2]), the ratio there
    is -452500/450000 < -1, and [xy_to_q] returns NaN for both angles. *)
Lemma origin_is_signalled_unreachable :
  fgt (r_sq_of (fl 0) (fl 0)) ((SCARA_L1 + SCARA_L2) * (SCARA_L1 + SCARA_L2))%flt = false
  /\ SFltb (r_sq_of (fl 0) (fl 0))
       ((SCARA_L1 - SCARA_L2) * (SCARA_L1 - SCARA_L2))%flt = true
  /\ SFltb (cos_q12_of (r_sq_of (fl 0) (fl 0))) (fl (-1)) = true
  /\ q1 (xy_to_q (fl 0) (fl 0)) = S754_nan
  /\ q2 (xy_to_q (fl 0) (fl 0)) = S754_nan
  /\ unreachable (fl 0) (fl 0) = true.
Proof. vm_compute. repeat split; reflexivity. Qed.

(** Witness of [unreachable_exactly_and_annulus_accepted], at the
    origin (unreachable by the ratio) and at (800, 0), whose
    [x*x + y*y] lies between [(l1-l2)^2] and [(l1+l2)^2]. *)
Lemma unreachable_exactly_run :
  in_unit_range (cos_q12_of (r_sq_of (fl 0) (fl 0))) = false
  /\ unreachable (fl 0) (fl 0) = true
  /\ fgt (r_sq_of (fl 800) (fl 0)) ((SCARA_L1 + SCARA_L2) * (SCARA_L1 + SCARA_L2))%flt
     = false
  /\ fgt ((SCARA_L1 - SCARA_L2) * (SCARA_L1 - SCARA_L2))%flt (r_sq_of (fl 800) (fl 0))
     = false
  /\ unreachable (fl 800) (fl 0) = false.
Proof.
  assert (H0 : libm_regular_at (fl 0) (fl 0))
    by (vm_compute; repeat split; intros; (reflexivity || discriminate)).
  assert (H8 : libm_regular_at (fl 800) (fl 0))
    by (vm_compute; repeat split; intros; (reflexivity || discriminate)).
  assert (Hr : in_unit_range (cos_q12_of (r_sq_of (fl 0) (fl 0))) = false)
    by (vm_compute; reflexivity).
  assert (Hhi : fgt (r_sq_of (fl 800) (fl 0))
                  ((SCARA_L1 + SCARA_L2) * (SCARA_L1 + SCARA_L2))%flt = false)
    by (vm_compute; reflexivity).
  assert (Hlo : fgt ((SCARA_L1 - SCARA_L2) * (SCARA_L1 - SCARA_L2))%flt
                  (r_sq_of (fl 800) (fl 0)) = false)
    by (vm_compute; reflexivity).
  pose proof (unreachable_exactly_and_annulus_accepted (m := RefLibm.libm)
                (fl 0) (fl 0) H0 eq_refl eq_refl) as Ho.
  pose proof (unreachable_exactly_and_annulus_accepted (m := RefLibm.libm)
                (fl 800) (fl 0) H8 eq_refl eq_refl) as Hp.
  cbv zeta in Ho, Hp. destruct Ho as [Ho _]. destruct Hp as [_ Hp].
  split; [exact Hr|]. split; [apply Ho; right; exact Hr|].
  split; [exact Hhi|]. split; [exact Hlo|].
  apply Hp; [reflexivity|exact Hhi|exact Hlo].
Defined.

(** A point nearer the origin than [l1 - l2] is not always signalled:
    at (49.9999, 0) the computed [x*x + y*y] is below [(l1-l2)^2], the
    ratio rounds to exactly -1, and both angles are numbers. *)
Example inner_zone_point_accepted :
  fgt ((SCARA_L1 - SCARA_L2) * (SCARA_L1 - SCARA_L2))%flt
      (r_sq_of (fl 499999 / fl 10000)%flt (fl 0)) = true
  /\ cos_q12_of (r_sq_of (fl 499999 / fl 10000)%flt (fl 0)) = fl (-1)
  /\ unreachable (fl 499999 / fl 10000)%flt (fl 0) = false.
Proof. vm_compute. repeat split; reflexivity. Qed.

(** The counterexample to C8: with one step per unit and the X/Y step
    counts (-950, 0), setting the target position of X once gives 180
    steps, twice gives 63; the bulk variant, for a cycle that holds the
    third axis, gives (180, 180) once and (108, -40) twice. *)
Lemma limits_not_idempotent_on_driven_axes :
  scara_limits_set_target_pos settings1 X_AXIS [-950; 0; 0]%Z = [180; 0; 0]%Z
  /\ scara_limits_set_target_pos settings1 X_AXIS [180; 0; 0]%Z = [63; 0; 0]%Z
  /\ scara_limits_set_machine_positions settings1 4 [-950; 0; 0]%Z = [180; 180; 0]%Z
  /\ scara_limits_set_machine_positions settings1 4 [180; 180; 0]%Z = [108; -40; 0]%Z.
Proof. vm_compute. repeat split; reflexivity. Qed.

(** Witness of [limits_idempotent_off_driven_axes]. *)
Lemma limits_idempotent_off_driven_axes_run :
  scara_limits_set_target_pos settings1 2 [180; 0; 7]%Z = [180; 0; 0]%Z
  /\ scara_limits_set_target_pos settings1 2
       (scara_limits_set_target_pos settings1 2 [180; 0; 7]%Z)
     = scara_limits_set_target_pos settings1 2 [180; 0; 7]%Z
  /\ scara_limits_set_machine_positions settings1 3 [180; 0; 7]%Z = [180; 0; 7]%Z.
Proof.
  destruct (limits_idempotent_off_driven_axes (A := arith32) (B := build3) settings1 [180; 0; 7]%Z) as [H1 H2].
  split; [reflexivity|]. split.
  - apply H1. lia.
  - apply (H2 3%Z). reflexivity.
Defined.

End Runs.

(** * Further properties of the wrappers and the segmenter *)
Section MoreFacts.
Context {A : Arith} {B : Build}.

(** **** The loops over all axes *)

Lemma for_each_axis_down_length {T : Type} (g : nat -> list T -> T) (n : nat)
  (t : list T) :
  length (for_each_axis_down n (fun idx a => <[idx := g idx a]> a) t) = length t.
Proof.
  revert t. induction n as [|n IH]; intros t; simpl; [reflexivity|].
  by rewrite IH, length_insert.
Qed.

(** A loop whose body rewrites entry [idx] from the old entry [idx]
    acts entry by entry. *)
Lemma for_each_axis_down_lookup {T : Type} `{Inhabited T} (g : nat -> T -> T)
  (n : nat) (t : list T) (i : nat) :
  (n <= length t)%nat ->
  for_each_axis_down n (fun idx a => <[idx := g idx (a !!! idx)]> a) t !! i
  = if decide (i < n)%nat then Some (g i (t !!! i)) else t !! i.
Proof.
  revert t. induction n as [|n IH]; intros t Hn; simpl.
  - destruct (decide (i < 0)%nat); [lia|reflexivity].
  - rewrite IH by (rewrite length_insert; lia).
    destruct (decide (i < n)%nat) as [Hi|Hi].
    + destruct (decide (i < S n)%nat); [|lia].
      rewrite list_lookup_total_insert_ne by lia. reflexivity.
    + destruct (decide (i = n)) as [->|Hne].
      * destruct (decide (n < S n)%nat); [|lia].
        apply list_lookup_insert_eq. lia.
      * destruct (decide (i < S n)%nat); [lia|].
        apply list_lookup_insert_ne. lia.
Qed.

Lemma lookup_two_then_drop {T : Type} (a b : T) (l : list T) (i : nat) :
  (a :: b :: drop 2 l) !! S (S i) = l !! S (S i).
Proof. simpl. rewrite lookup_drop. reflexivity. Qed.

Lemma to_cartesian_closed_form (coords angles : vec) :
  (3 <= N_AXIS)%nat -> length coords = N_AXIS -> length angles = N_AXIS ->
  let xy := q_to_xy (angles !!! A_MOTOR) (angles !!! B_MOTOR) in
  scara_transform_to_cartesian coords angles = x xy :: y xy :: drop 2 angles.
Proof.
  intros HN Hc Ha xy. unfold scara_transform_to_cartesian. fold xy.
  unfold X_AXIS, Y_AXIS.
  assert (Hl : length (copy_higher (N_AXIS - 1) coords angles) = N_AXIS)
    by (by rewrite copy_higher_length).
  apply list_eq. intros [|[|i]].
  - rewrite list_lookup_insert_ne by lia.
    rewrite list_lookup_insert_eq by lia. reflexivity.
  - rewrite list_lookup_insert_eq by (rewrite length_insert; lia). reflexivity.
  - rewrite !list_lookup_insert_ne by lia. rewrite lookup_two_then_drop.
    destruct (decide (S (S i) < N_AXIS)%nat) as [Hi|Hi].
    + rewrite copy_higher_high by lia.
      symmetry. apply list_lookup_lookup_total_lt. lia.
    + rewrite !lookup_ge_None_2; [reflexivity|lia|lia].
Qed.

(** X1: [scara_transform_to_cartesian] overwrites the whole buffer: the
    result is the forward image of the two joint angles followed by the
    pass-through entries of the input, whatever the buffer held. *)
Theorem to_cartesian_overwrites_buffer (coords angles : vec) :
  (3 <= N_AXIS)%nat -> length coords = N_AXIS -> length angles = N_AXIS ->
  let xy := q_to_xy (angles !!! A_MOTOR) (angles !!! B_MOTOR) in
  scara_transform_to_cartesian coords angles = x xy :: y xy :: drop 2 angles.
Proof. exact (to_cartesian_closed_form coords angles). Qed.

(** X2: on a reachable point [scara_transform_from_cartesian] returns
    the buffer, raises nothing, and overwrites the whole buffer with the
    two joint angles followed by the pass-through entries of the input. *)
Theorem from_cartesian_overwrites_buffer (target_q position_xy : vec) :
  (3 <= N_AXIS)%nat -> length target_q = N_AXIS -> length position_xy = N_AXIS ->
  unreachable (position_xy !!! A_MOTOR) (position_xy !!! B_MOTOR) = false ->
  let q := xy_to_q (position_xy !!! A_MOTOR) (position_xy !!! B_MOTOR) in
  let r := scara_transform_from_cartesian target_q position_xy in
  returned_null r = false /\ raised r = []
  /\ buffer r = q1 q :: q2 q :: drop 2 position_xy.
Proof.
  intros HN Ht Hp Hreach q r.
  destruct (from_cartesian_reachable target_q position_xy HN Ht Hreach)
    as (Hn & Hr & H0 & H1 & Hhi & Hlen).
  fold r in Hn, Hr, H0, H1, Hhi, Hlen. fold q in H0, H1.
  split; [exact Hn|]. split; [exact Hr|].
  apply list_eq. intros [|[|i]]; [exact H0|exact H1|].
  rewrite lookup_two_then_drop.
  destruct (decide (S (S i) < N_AXIS)%nat) as [Hi|Hi].
  - rewrite Hhi by lia. symmetry. apply list_lookup_lookup_total_lt. lia.
  - rewrite !lookup_ge_None_2; [reflexivity|lia|lia].
Qed.

Lemma steps_to_cartesian_lookup (settings : settings_t) (position : vec)
  (steps : list Z) :
  (3 <= N_AXIS)%nat -> length position = N_AXIS ->
  let unit_of (idx : nat) : F :=
    (of_int (steps !!! idx) / steps_per_mm (axis settings !!! idx))%flt in
  let xy := q_to_xy (unit_of A_MOTOR) (unit_of B_MOTOR) in
  let r := scara_transform_steps_to_cartesian settings position steps in
  r !! X_AXIS = Some (x xy) /\ r !! Y_AXIS = Some (y xy)
  /\ (forall idx, (2 <= idx < N_AXIS)%nat -> r !! idx = Some (unit_of idx))
  /\ length r = N_AXIS.
Proof.
  intros HN Hp unit_of xy r.
  set (angles := for_each_axis_down N_AXIS
                   (fun idx a => <[idx := unit_of idx]> a)
                   (replicate N_AXIS (of_int 0))).
  assert (Hlen : length angles = N_AXIS).
  { unfold angles.
    rewrite (for_each_axis_down_length (fun idx _ => unit_of idx)).
    apply length_replicate. }
  assert (Hang : forall i, (i < N_AXIS)%nat -> angles !!! i = unit_of i).
  { intros i Hi. apply list_lookup_total_correct. unfold angles.
    rewrite (for_each_axis_down_lookup (fun idx _ => unit_of idx))
      by (rewrite length_replicate; lia).
    destruct (decide (i < N_AXIS)%nat); [reflexivity|lia]. }
  assert (Hr : r = scara_transform_to_cartesian position angles) by reflexivity.
  pose proof (to_cartesian_closed_form position angles HN Hp Hlen) as Hcf.
  cbv zeta in Hcf. rewrite <- Hr in Hcf.
  unfold A_MOTOR, B_MOTOR, X_AXIS, Y_AXIS in *.
  rewrite (Hang 0%nat), (Hang 1%nat) in Hcf by lia. fold xy in Hcf.
  rewrite Hcf. repeat split.
  - intros [|[|i]] Hi; [lia|lia|].
    rewrite lookup_two_then_drop. rewrite <- (Hang (S (S i))) by lia.
    apply list_lookup_lookup_total_lt. lia.
  - simpl. rewrite length_drop. lia.
Qed.

(** X3: [scara_transform_steps_to_cartesian] divides every step count
    by the steps-per-unit of its axis; the two driven axes then go
    through the forward kinematics and the others are returned as they
    are. *)
Theorem steps_to_cartesian_by_axis (settings : settings_t) (position : vec)
  (steps : list Z) :
  (3 <= N_AXIS)%nat -> length position = N_AXIS ->
  let unit_of (idx : nat) : F :=
    (of_int (steps !!! idx) / steps_per_mm (axis settings !!! idx))%flt in
  let xy := q_to_xy (unit_of A_MOTOR) (unit_of B_MOTOR) in
  let r := scara_transform_steps_to_cartesian settings position steps in
  r !! X_AXIS = Some (x xy) /\ r !! Y_AXIS = Some (y xy)
  /\ (forall idx, (2 <= idx < N_AXIS)%nat -> r !! idx = Some (unit_of idx))
  /\ length r = N_AXIS.
Proof.
  exact (steps_to_cartesian_lookup settings position steps).
Qed.

End MoreFacts.

Section MoreSegmenter.
Context {A : Arith} {B : Build}.

Lemma init_delta_eq (target position : vec) (rapid : bool) (s : statics) :
  delta (segment_line_init target position rapid s)
  = if init_do_segments target position rapid s
    then for_each_axis_down N_AXIS
           (fun idx d =>
              <[idx := (d !!! idx / of_int (init_count target position rapid s))%flt]> d)
           (init_total_delta target position s)
    else init_total_delta target position s.
Proof.
  unfold segment_line_init, init_count, init_do_segments, init_distance,
    init_total_delta, init_current_position.
  destruct (negb rapid && _); reflexivity.
Qed.

Lemma init_total_delta_length (target position : vec) (s : statics) :
  length (init_total_delta target position s) = length (delta s).
Proof.
  unfold init_total_delta.
  apply (for_each_axis_down_length
           (fun idx _ => (target !!! idx - init_current_position position s !!! idx)%flt)).
Qed.

Lemma init_total_delta_lookup (target position : vec) (s : statics) (i : nat) :
  length (delta s) = N_AXIS -> (i < N_AXIS)%nat ->
  init_total_delta target position s !! i
  = Some (target !!! i - init_current_position position s !!! i)%flt.
Proof.
  intros Hlen Hi. unfold init_total_delta.
  assert (Hn : (N_AXIS <= length (delta s))%nat) by lia.
  rewrite (for_each_axis_down_lookup
             (fun idx _ => (target !!! idx - init_current_position position s !!! idx)%flt)
             N_AXIS (delta s) i Hn).
  destruct (decide (i < N_AXIS)%nat); [reflexivity|lia].
Qed.

(** X4: a call with [init] prepares a linear interpolation on every
    axis, the pass-through ones included: when the move is segmented the
    step of axis [i] is the whole difference divided by the segment
    count, and the segment target starts at the current cartesian
    position; otherwise the step is the whole difference and the segment
    target is the final target. *)
Theorem init_prepares_interpolation (target position : vec) (rapid : bool)
  (s : statics) :
  length (delta s) = N_AXIS ->
  let s0 := snd (scara_segment_line target position rapid true s) in
  let cur := init_current_position position s in
  let count := init_count target position rapid s in
  (forall i, (i < N_AXIS)%nat ->
     delta s0 !! i
     = Some (if init_do_segments target position rapid s
             then ((target !!! i - cur !!! i) / of_int count)%flt
             else (target !!! i - cur !!! i)%flt))
  /\ length (delta s0) = N_AXIS
  /\ segment_target s0
     = (if init_do_segments target position rapid s then cur else target)
  /\ final_target s0 = target.
Proof.
  intros Hlen s0 cur count.
  pose proof (segment_line_result target position rapid true s) as Hr.
  cbv zeta in Hr. destruct Hr as (_ & _ & _ & _ & Hd & Hst & _ & Hft & _).
  fold s0 in Hd, Hst, Hft.
  pose proof (init_fields target position rapid s) as Hf.
  cbv zeta in Hf. destruct Hf as (_ & Hft1 & _ & Hst1 & _).
  rewrite (init_do_segments_eq target position rapid s) in Hst1.
  rewrite Hd, Hst, Hft, Hst1, Hft1, init_delta_eq. fold cur count.
  pose proof (init_total_delta_length target position s) as Htl.
  assert (Hn : (N_AXIS <= length (init_total_delta target position s))%nat) by lia.
  destruct (init_do_segments target position rapid s).
  - split; [|split; [|split; reflexivity]].
    + intros i Hi.
      rewrite (for_each_axis_down_lookup (fun _ v => (v / of_int count)%flt)
                 N_AXIS (init_total_delta target position s) i Hn).
      destruct (decide (i < N_AXIS)%nat); [|lia].
      rewrite (list_lookup_total_correct _ _ _
                 (init_total_delta_lookup target position s i Hlen Hi)).
      reflexivity.
    + rewrite (for_each_axis_down_length
                 (fun idx d => (d !!! idx / of_int count)%flt)).
      lia.
  - split; [|split; [|split; reflexivity]].
    + intros i Hi. apply init_total_delta_lookup; assumption.
    + lia.
Qed.

Lemma next_advance (s : statics) :
  do_segments s = true ->
  (3 <= iterations s < 2 ^ UINT_FAST16_BITS)%Z ->
  length (segment_target s) = N_AXIS ->
  let s' := snd (next s) in
  (forall i, (i < N_AXIS)%nat ->
     segment_target s' !! i = Some (segment_target s !!! i + delta s !!! i)%flt)
  /\ length (segment_target s') = N_AXIS
  /\ delta s' = delta s /\ final_target s' = final_target s
  /\ iterations s' = (iterations s - 1)%Z
  /\ do_segments s' = do_segments s.
Proof.
  intros Hds Hit Hlen s'.
  pose proof (segment_line_result [] [] false false s) as Hr.
  cbv zeta in Hr. destruct Hr as (_ & _ & Hdo & Hi & Hd & Hst & _ & Hft & _).
  fold (next s) in Hdo, Hi, Hd, Hst, Hft. fold s' in Hdo, Hi, Hd, Hst, Hft.
  assert (Hw : wrap_unsigned UINT_FAST16_BITS (iterations s - 1) = (iterations s - 1)%Z)
    by (apply wrap_unsigned_small; lia).
  assert (Hst1 : segment_target (segment_line_advance s)
                 = for_each_axis_down N_AXIS
                     (fun idx t => <[idx := (t !!! idx + delta s !!! idx)%flt]> t)
                     (segment_target s)).
  { unfold segment_line_advance. cbn [segment_target]. rewrite Hw, Hds.
    replace (1 <? iterations s - 1)%Z with true
      by (symmetry; apply Z.ltb_lt; lia).
    reflexivity. }
  rewrite Hst, Hst1, Hd, Hft, Hi.
  assert (Hn : (N_AXIS <= length (segment_target s))%nat) by lia.
  split; [|split; [|split; [reflexivity|split; [reflexivity|split; [exact Hw|exact Hdo]]]]].
  - intros i Hi'.
    rewrite (for_each_axis_down_lookup (fun idx v => (v + delta s !!! idx)%flt)
               N_AXIS (segment_target s) i Hn).
    destruct (decide (i < N_AXIS)%nat); [reflexivity|lia].
  - rewrite (for_each_axis_down_length
               (fun idx t => (t !!! idx + delta s !!! idx)%flt)).
    exact Hlen.
Qed.

(** X5: while more than one segment remains after the call, a later
    call of a segmented move shifts the segment target by the stored
    step on every axis, the pass-through ones included, and keeps the
    step and the final target. *)
Theorem next_steps_by_delta (s : statics) :
  do_segments s = true ->
  (3 <= iterations s < 2 ^ UINT_FAST16_BITS)%Z ->
  length (segment_target s) = N_AXIS ->
  let s' := snd (next s) in
  (forall i, (i < N_AXIS)%nat ->
     segment_target s' !! i = Some (segment_target s !!! i + delta s !!! i)%flt)
  /\ length (segment_target s') = N_AXIS
  /\ delta s' = delta s /\ final_target s' = final_target s
  /\ iterations s' = (iterations s - 1)%Z.
Proof.
  intros Hds Hit Hlen s'.
  pose proof (next_advance s Hds Hit Hlen) as H. cbv zeta in H.
  destruct H as (H1 & H2 & H3 & H4 & H5 & _).
  repeat split; assumption.
Qed.

(** X6: when the segment count computed by the call with [init] fits
    the counter, the session yields exactly that many real segments:
    the call with [init] returns a waypoint, as many later calls as the
    count return one, and the call after them returns the termination
    signal. *)
Theorem session_yields_init_count (target position : vec) (rapid : bool)
  (s : statics) :
  (16 <= UINT_FAST16_BITS)%Z ->
  (init_count target position rapid s + 1 < 2 ^ UINT_FAST16_BITS)%Z ->
  let res := scara_segment_line target position rapid true s in
  (exists v, fst res = Some v)
  /\ yields_segments (Z.to_nat (init_count target position rapid s)) (snd res).
Proof.
  intros Hw Hfit res.
  pose proof (init_call target position rapid s Hw Hfit) as Hc.
  cbv zeta in Hc.
  destruct Hc as (H0 & _ & _ & _ & Hj & _ & _ & _ & Hlt & Hit & _).
  fold res in H0, Hj, Hlt, Hit.
  assert (Hw0 : (0 <= UINT_FAST16_BITS)%Z) by lia.
  pose proof (init_count_nonneg target position rapid s Hw0) as Hnn.
  split; [eexists; exact H0|].
  apply run_next_yields; [|assumption|assumption].
  rewrite Hit, Z2Nat.id by assumption. reflexivity.
Qed.

(** X7: when the segment count is the largest value of the counter,
    [iterations++] wraps to zero and the call with [init] itself returns
    the termination signal. *)
Theorem init_returns_null_when_counter_wraps (target position : vec)
  (rapid : bool) (s : statics) :
  (1 <= UINT_FAST16_BITS)%Z ->
  let res := scara_segment_line target position rapid true s in
  fst res = None
  <-> init_count target position rapid s = (2 ^ UINT_FAST16_BITS - 1)%Z.
Proof.
  intros Hw1 res.
  assert (Hw : (0 <= UINT_FAST16_BITS)%Z) by lia.
  pose proof (segment_line_result target position rapid true s) as Hr.
  cbv zeta in Hr. destruct Hr as (Hres & _).
  fold res in Hres.
  pose proof (init_fields target position rapid s) as Hf.
  cbv zeta in Hf. destruct Hf as (Hj & _).
  rewrite Hres, Hj, orb_false_r, init_iterations.
  pose proof (init_count_nonneg target position rapid s Hw) as Hnn.
  assert (Hub : (init_count target position rapid s < 2 ^ UINT_FAST16_BITS)%Z).
  { unfold init_count, to_uint_fast16, wrap_unsigned.
    assert (0 < 2 ^ UINT_FAST16_BITS)%Z by (apply Z.pow_pos_nonneg; lia).
    destruct (init_do_segments _ _ _ _).
    - apply Z.mod_pos_bound. lia.
    - assert (2 ^ 1 <= 2 ^ UINT_FAST16_BITS)%Z by (apply Z.pow_le_mono_r; lia).
      change (2 ^ 1)%Z with 2%Z in *. lia. }
  unfold wrap_unsigned.
  set (c := init_count target position rapid s) in *.
  set (m := (2 ^ UINT_FAST16_BITS)%Z) in *.
  assert (Hm : (0 < m)%Z) by (apply Z.pow_pos_nonneg; lia).
  destruct (Z.eq_dec c (m - 1)) as [E|E].
  - replace (c + 1)%Z with (1 * m)%Z by lia.
    rewrite Z.mod_mul by lia. split; [intros _; exact E|reflexivity].
  - rewrite Z.mod_small by lia.
    destruct (Z.eqb_spec (c + 1) 0); [lia|]. split; [discriminate|lia].
Qed.

Lemma cancelled_calls (n : nat) (s : statics) :
  jog_cancel s = true ->
  (forall i, (i < n)%nat -> fst (run_next n s) !! i = Some None)
  /\ jog_cancel (snd (run_next n s)) = true.
Proof.
  revert s. induction n as [|n IH]; intros s Hc.
  - split; [intros i Hi; lia|exact Hc].
  - pose proof (segment_line_result [] [] false false s) as Hr.
    cbv zeta in Hr. destruct Hr as (Hres & Hj & _).
    fold (next s) in Hres, Hj.
    change (jog_cancel (segment_line_advance s)) with (jog_cancel s) in Hres, Hj.
    rewrite Hc, orb_true_r in Hres. rewrite Hc in Hj.
    destruct (run_next_S n s) as [E1 E2]. rewrite E1, E2.
    destruct (IH (snd (next s)) Hj) as [IHa IHb].
    split; [|exact IHb].
    intros [|i] Hi.
    + change ((?r :: ?rs) !! 0%nat) with (Some r). by rewrite Hres.
    + rewrite lookup_cons_shift. apply IHa. lia.
Qed.

(** X8: a cancellation lasts until the next call with [init]: after
    [cancel_jog], every later call without [init] returns the
    termination signal, however many are made and whatever the counter
    holds, and the flag stays set. *)
Theorem cancellation_persists (n : nat) (s : statics) :
  (forall i, (i < n)%nat -> fst (run_next n (cancel_jog s)) !! i = Some None)
  /\ jog_cancel (snd (run_next n (cancel_jog s))) = true.
Proof.
  apply cancelled_calls. reflexivity.
Qed.

(** X9: the segmenter does not guard against a call that follows the
    termination signal: with the counter at zero and no cancellation,
    a call without [init] wraps the counter to its largest value and
    returns a waypoint again. *)
Theorem next_after_termination_wraps (s : statics) :
  (1 <= UINT_FAST16_BITS)%Z ->
  iterations s = 0%Z -> jog_cancel s = false ->
  (exists v, fst (next s) = Some v)
  /\ iterations (snd (next s)) = (2 ^ UINT_FAST16_BITS - 1)%Z.
Proof.
  intros Hw Hit Hc.
  pose proof (segment_line_result [] [] false false s) as Hr.
  cbv zeta in Hr. destruct Hr as (Hres & _ & _ & Hi & _).
  fold (next s) in Hres, Hi.
  assert (Hpow : (2 ^ 1 <= 2 ^ UINT_FAST16_BITS)%Z) by (apply Z.pow_le_mono_r; lia).
  change (2 ^ 1)%Z with 2%Z in Hpow.
  assert (Hwrap : iterations (segment_line_advance s) = (2 ^ UINT_FAST16_BITS - 1)%Z).
  { unfold segment_line_advance. cbn [iterations]. rewrite Hit. unfold wrap_unsigned.
    replace (0 - 1)%Z with (2 ^ UINT_FAST16_BITS - 1 + (-1) * 2 ^ UINT_FAST16_BITS)%Z by lia.
    rewrite Z.mod_add by lia. apply Z.mod_small. lia. }
  change (jog_cancel (segment_line_advance s)) with (jog_cancel s) in Hres.
  rewrite Hwrap, Hc, orb_false_r in Hres. rewrite Hwrap in Hi.
  split; [|exact Hi].
  rewrite Hres. destruct (Z.eqb_spec (2 ^ UINT_FAST16_BITS - 1) 0); [lia|]. eauto.
Qed.

(** X10: every call, with or without [init] and also one that returns
    the termination signal, converts the segment target it leaves
    behind and raises the soft-limit alarm exactly when that target is
    unreachable; the joint buffer keeps what the conversion wrote. *)
Theorem every_call_checks_reach (target position : vec) (rapid init : bool)
  (s : statics) :
  let res := scara_segment_line target position rapid init s in
  let t := segment_target (snd res) in
  alarms (snd res)
  = (if unreachable (t !!! X_AXIS) (t !!! Y_AXIS) then [Alarm_SoftLimit] else [])
    ++ alarms s
  /\ (fst res = None \/ fst res = Some (current_position (snd res))).
Proof.
  intros res t.
  pose proof (segment_line_result target position rapid init s) as Hr.
  cbv zeta in Hr.
  destruct Hr as (Hres & _ & _ & _ & _ & Hst & Hcp & _ & Ha).
  fold res in Hres, Hst, Hcp, Ha. fold t in Hst.
  set (s1 := if init then segment_line_init target position rapid s
             else segment_line_advance s) in *.
  assert (Ha1 : alarms s1 = alarms s).
  { unfold s1. destruct init; [apply init_fields|reflexivity]. }
  split.
  - rewrite Ha, Ha1, <- Hst. f_equal.
    unfold scara_transform_from_cartesian, unreachable. cbv zeta.
    unfold A_MOTOR, B_MOTOR.
    destruct (isnan (q1 (xy_to_q (t !!! X_AXIS) (t !!! Y_AXIS)))
              || isnan (q2 (xy_to_q (t !!! X_AXIS) (t !!! Y_AXIS)))); reflexivity.
  - rewrite Hres, Hcp.
    destruct ((iterations s1 =? 0)%Z || jog_cancel s1); [left|right]; reflexivity.
Qed.

End MoreSegmenter.

Section MoreHoming.
Context {A : Arith} {B : Build}.

Lemma pulloff_at_absorbs (settings : settings_t) (i j : nat) (p : Z) :
  pulloff_at settings i (pulloff_at settings j p) = pulloff_at settings i p.
Proof.
  unfold pulloff_at. destruct (force_set_origin (homing settings)); reflexivity.
Qed.

Lemma machine_positions_loop_S (settings : settings_t) (xy : xy_t) (k : nat)
  (p : Z) (position : list Z) :
  machine_positions_loop settings xy (S k) p position
  = let pulloff := pulloff_at settings (S k) p in
    let position :=
      match k with
      | 0%nat =>
          <[A_MOTOR := to_int32 (q1 (xy_to_q (x xy) (y xy))
                                 * steps_per_mm (axis settings !!! A_MOTOR)
                                 + of_int pulloff)%flt]> position
      | 1%nat =>
          <[B_MOTOR := to_int32 (q2 (xy_to_q (x xy) (y xy))
                                 * steps_per_mm (axis settings !!! B_MOTOR)
                                 + of_int pulloff)%flt]> position
      | _ => <[k := 0%Z]> position
      end in
    match k with
    | O => position
    | S _ => machine_positions_loop settings xy k pulloff position
    end.
Proof.
  cbn [machine_positions_loop]. unfold pulloff_at, forced_origin_pulloff.
  destruct (force_set_origin (homing settings)); reflexivity.
Qed.

Lemma machine_positions_loop_length (settings : settings_t) (xy : xy_t) (k : nat) :
  forall (p : Z) (position : list Z),
  length (machine_positions_loop settings xy (S k) p position) = length position.
Proof.
  induction k as [|k IH]; intros p position; rewrite machine_positions_loop_S; cbv zeta.
  - apply length_insert.
  - rewrite IH. destruct k; apply length_insert.
Qed.

(** The loop entered with [S k] leaves every axis from [S k] up as it
    was, zeroes the axes from 2 to [k], and sets the two driven axes
    from [xy], each with the offset computed in the iteration entered
    one axis higher. *)
Lemma machine_positions_loop_lookup (settings : settings_t) (xy : xy_t) (k : nat) :
  forall (p : Z) (position : list Z) (j : nat),
  (k < length position)%nat ->
  machine_positions_loop settings xy (S k) p position !! j
  = if decide (k < j)%nat then position !! j
    else match j with
         | 0%nat =>
             Some (to_int32 (q1 (xy_to_q (x xy) (y xy))
                             * steps_per_mm (axis settings !!! A_MOTOR)
                             + of_int (pulloff_at settings 1 p))%flt)
         | 1%nat =>
             Some (to_int32 (q2 (xy_to_q (x xy) (y xy))
                             * steps_per_mm (axis settings !!! B_MOTOR)
                             + of_int (pulloff_at settings 2 p))%flt)
         | _ => Some 0%Z
         end.
Proof.
  induction k as [|k IH]; intros p position j Hlen;
    rewrite machine_positions_loop_S; cbv zeta.
  - unfold A_MOTOR, X_AXIS. destruct (decide (0 < j)%nat) as [Hj|Hj].
    + apply list_lookup_insert_ne. lia.
    + assert (j = 0%nat) by lia. subst j.
      apply list_lookup_insert_eq. lia.
  - cbv beta iota.
    match goal with
    | |- machine_positions_loop _ _ _ _ ?P !! _ = _ => set (position' := P)
    end.
    assert (Hlen' : length position' = length position)
      by (unfold position'; destruct k; apply length_insert).
    assert (Hk : (k < length position')%nat) by lia.
    rewrite (IH (pulloff_at settings (S (S k)) p) position' j Hk).
    rewrite !pulloff_at_absorbs.
    destruct (decide (k < j)%nat) as [Hkj|Hkj];
      destruct (decide (S k < j)%nat) as [Hkj'|Hkj']; try lia.
    + unfold position'. unfold A_MOTOR, B_MOTOR, X_AXIS, Y_AXIS.
      destruct k; apply list_lookup_insert_ne; lia.
    + assert (j = S k) by lia. subst j.
      unfold position'. unfold A_MOTOR, B_MOTOR, X_AXIS, Y_AXIS.
      destruct k as [|k]; apply list_lookup_insert_eq; lia.
    + destruct j as [|[|j]]; reflexivity.
Qed.

Lemma bit_pow2 (n : nat) : bit n = (2 ^ Z.of_nat n)%Z.
Proof. unfold bit. apply Z.shiftl_1_l. Qed.

Lemma bit_istrue_bit (i j : nat) :
  bit_istrue (bit i) (bit j) = bool_decide (i = j).
Proof.
  unfold bit_istrue. rewrite !bit_pow2.
  destruct (decide (i = j)) as [->|Hne].
  - rewrite Z.land_diag, bool_decide_eq_true_2 by reflexivity.
    assert (0 < 2 ^ Z.of_nat j)%Z by (apply Z.pow_pos_nonneg; lia).
    destruct (Z.eqb_spec (2 ^ Z.of_nat j) 0); [lia|reflexivity].
  - rewrite bool_decide_eq_false_2 by assumption.
    replace (Z.land (2 ^ Z.of_nat i) (2 ^ Z.of_nat j)) with 0%Z; [reflexivity|].
    symmetry. apply Z.bits_inj'. intros n Hn.
    rewrite Z.land_spec, Z.bits_0, !Z.pow2_bits_eqb by lia.
    destruct (Z.eqb_spec (Z.of_nat i) n), (Z.eqb_spec (Z.of_nat j) n);
      try reflexivity; lia.
Qed.

(** X11: when the cycle holds the highest axis,
    [scara_limits_set_machine_positions] leaves that axis as it was,
    zeroes every axis between it and the driven ones, and sets both
    driven axes from the inverse kinematics of the position on entry;
    the offset added to a driven axis is zero without
    [force_set_origin], and with it the pull-off computed from the
    settings of the axis one above: of axis 2 for the second driven
    axis, of the second driven axis for the first. *)
Theorem set_machine_positions_by_axis (settings : settings_t) (cycle_mask : Z)
  (position : list Z) :
  (3 <= N_AXIS)%nat -> length position = N_AXIS ->
  bit_istrue cycle_mask (bit (N_AXIS - 1)) = true ->
  let xy := steps_xy settings position in
  let q := xy_to_q (x xy) (y xy) in
  let offset idx :=
    if force_set_origin (homing settings)
    then forced_origin_pulloff settings (S idx) else 0%Z in
  let position' := scara_limits_set_machine_positions settings cycle_mask position in
  position' !! A_MOTOR
  = Some (to_int32 (q1 q * steps_per_mm (axis settings !!! A_MOTOR)
                    + of_int (offset A_MOTOR))%flt)
  /\ position' !! B_MOTOR
     = Some (to_int32 (q2 q * steps_per_mm (axis settings !!! B_MOTOR)
                       + of_int (offset B_MOTOR))%flt)
  /\ (forall idx, (2 <= idx < N_AXIS - 1)%nat -> position' !! idx = Some 0%Z)
  /\ position' !! (N_AXIS - 1)%nat = position !! (N_AXIS - 1)%nat
  /\ length position' = N_AXIS.
Proof.
  intros HN Hlen Hbit xy q offset position'.
  unfold position', scara_limits_set_machine_positions. rewrite Hbit.
  fold xy.
  destruct N_AXIS as [|n] eqn:EN; [lia|].
  replace (S n - 1)%nat with n by lia.
  destruct n as [|k]; [lia|].
  assert (Hk : (k < length position)%nat) by lia.
  pose proof (machine_positions_loop_lookup settings xy k 0%Z position) as Hl.
  unfold A_MOTOR, B_MOTOR, X_AXIS, Y_AXIS, offset, pulloff_at in *.
  split; [|split; [|split; [|split]]].
  - rewrite (Hl 0%nat Hk). destruct (decide (k < 0)%nat); [lia|reflexivity].
  - rewrite (Hl 1%nat Hk). destruct (decide (k < 1)%nat); [lia|reflexivity].
  - intros idx Hidx. rewrite (Hl idx Hk).
    destruct (decide (k < idx)%nat); [lia|].
    destruct idx as [|[|idx]]; [lia|lia|reflexivity].
  - rewrite (Hl (S k) Hk). destruct (decide (k < S k)%nat); [reflexivity|lia].
  - rewrite machine_positions_loop_length. exact Hlen.
Qed.

(** X12: a homing cycle of one axis, with the mask
    [scara_limits_get_axis_mask] gives it, sets no machine position
    unless the axis is the highest one: the driven axes of a machine
    with three axes or more are never set by their own cycles. *)
Theorem single_axis_cycle_sets_nothing (settings : settings_t) (idx : nat)
  (position : list Z) :
  idx <> (N_AXIS - 1)%nat ->
  scara_limits_set_machine_positions settings (scara_limits_get_axis_mask idx) position
  = position.
Proof.
  intros Hne. unfold scara_limits_set_machine_positions, scara_limits_get_axis_mask.
  rewrite bit_istrue_bit, bool_decide_eq_false_2 by assumption. reflexivity.
Qed.

End MoreHoming.

(** * More concrete runs in binary32 *)
Section MoreRuns.
Import B32 Example.
#[local] Existing Instance RefLibm.libm.
#[local] Existing Instance build3.

(** Witness of [to_cartesian_overwrites_buffer]: the home angles. *)
Lemma to_cartesian_overwrites_buffer_run :
  scara_transform_to_cartesian [fl 7; fl 8; fl 9] joints_home
  = [S754_finite false 16383999 (-15); fl (-450); fl 1].
Proof.
  assert (HN : (3 <= N_AXIS)%nat) by (vm_compute; lia).
  pose proof (to_cartesian_overwrites_buffer (A := arith32) (B := build3)
                [fl 7; fl 8; fl 9] joints_home HN eq_refl eq_refl) as H.
  cbv zeta in H.
  etransitivity; [exact H|]. vm_compute. reflexivity.
Defined.

(** Witness of [from_cartesian_overwrites_buffer]: the point (800, 0). *)
Lemma from_cartesian_overwrites_buffer_run :
  unreachable (target_150 !!! A_MOTOR) (target_150 !!! B_MOTOR) = false
  /\ buffer (scara_transform_from_cartesian [fl 7; fl 8; fl 9] target_150)
     = [S754_finite false 16123700 (-19); S754_finite true 9075993 (-18); fl 5].
Proof.
  assert (HN : (3 <= N_AXIS)%nat) by (vm_compute; lia).
  assert (Hun : unreachable (target_150 !!! A_MOTOR) (target_150 !!! B_MOTOR) = false)
    by (vm_compute; reflexivity).
  split; [exact Hun|].
  pose proof (from_cartesian_overwrites_buffer (A := arith32) (B := build3)
                [fl 7; fl 8; fl 9] target_150 HN eq_refl eq_refl Hun) as H.
  cbv zeta in H. destruct H as (_ & _ & H).
  etransitivity; [exact H|]. vm_compute. reflexivity.
Defined.

(** Witness of [steps_to_cartesian_by_axis]: the step counts of the home
    angles with one step per unit. *)
Lemma steps_to_cartesian_by_axis_run :
  scara_transform_steps_to_cartesian settings1 [fl 7; fl 8; fl 9] [0; -90; 6]%Z
    !! 2%nat = Some (fl 6)
  /\ scara_transform_steps_to_cartesian settings1 [fl 7; fl 8; fl 9] [0; -90; 6]%Z
    !! Y_AXIS = Some (fl (-450)).
Proof.
  assert (HN : (3 <= N_AXIS)%nat) by (vm_compute; lia).
  pose proof (steps_to_cartesian_by_axis (A := arith32) (B := build3)
                settings1 [fl 7; fl 8; fl 9] [0; -90; 6]%Z HN eq_refl) as H.
  cbv zeta in H. destruct H as (_ & Hy & Hp & _).
  split.
  - etransitivity; [apply (Hp 2%nat); vm_compute; lia|]. vm_compute. reflexivity.
  - etransitivity; [exact Hy|]. vm_compute. reflexivity.
Defined.

(** Witness of [init_prepares_interpolation]: the 150 mm move in 75
    segments steps by -2 along x. *)
Lemma init_prepares_interpolation_run :
  delta (snd (scara_segment_line target_150 joints_stretched false true start))
    !! X_AXIS = Some (fl (-2))
  /\ segment_target (snd (scara_segment_line target_150 joints_stretched false true start))
     = [fl 950; fl 0; fl 1].
Proof.
  pose proof (init_prepares_interpolation (A := arith32) (B := build3)
                target_150 joints_stretched false start eq_refl) as H.
  cbv zeta in H. destruct H as (Hd & _ & Hs & _).
  split.
  - etransitivity; [apply (Hd 0%nat); vm_compute; lia|]. vm_compute. reflexivity.
  - rewrite Hs. vm_compute. reflexivity.
Defined.

(** Witness of [next_steps_by_delta]: the first later call of the
    150 mm move. *)
Lemma next_steps_by_delta_run :
  segment_target
    (snd (next (snd (scara_segment_line target_150 joints_stretched false true start))))
    !! X_AXIS = Some (fl 948)
  /\ iterations
       (snd (next (snd (scara_segment_line target_150 joints_stretched false true start))))
     = 75%Z.
Proof.
  assert (Hds : do_segments
                  (snd (scara_segment_line target_150 joints_stretched false true start))
                = true) by (vm_compute; reflexivity).
  assert (Hit : (3 <= iterations
                   (snd (scara_segment_line target_150 joints_stretched false true start))
                 < 2 ^ UINT_FAST16_BITS)%Z) by (vm_compute; split; [discriminate|reflexivity]).
  assert (Hlen : length (segment_target
                   (snd (scara_segment_line target_150 joints_stretched false true start)))
                 = N_AXIS) by (vm_compute; reflexivity).
  pose proof (next_steps_by_delta (A := arith32) (B := build3) _ Hds Hit Hlen) as H.
  cbv zeta in H. destruct H as (Hs & _ & _ & _ & Hi).
  split.
  - etransitivity; [apply (Hs 0%nat); vm_compute; lia|]. vm_compute. reflexivity.
  - etransitivity; [exact Hi|]. vm_compute. reflexivity.
Defined.

(** Witness of [session_yields_init_count]: a move of 50 mm yields 25
    real segments. *)
Lemma session_yields_init_count_run :
  init_count target_50 joints_stretched false start = 25%Z
  /\ yields_segments 25 (snd (scara_segment_line target_50 joints_stretched false true start)).
Proof.
  assert (Hc : init_count target_50 joints_stretched false start = 25%Z)
    by (vm_compute; reflexivity).
  assert (Hw : (16 <= UINT_FAST16_BITS)%Z) by (vm_compute; discriminate).
  assert (Hfit : (init_count target_50 joints_stretched false start + 1
                  < 2 ^ UINT_FAST16_BITS)%Z) by (vm_compute; reflexivity).
  pose proof (session_yields_init_count (A := arith32) (B := build3)
                target_50 joints_stretched false start Hw Hfit) as H.
  cbv zeta in H. destruct H as (_ & H). rewrite Hc in H.
  split; [exact Hc|exact H].
Defined.

(** Witness of [init_returns_null_when_counter_wraps]: the 50 mm move
    is not at the largest count and its call with [init] returns a
    waypoint. *)
Lemma init_returns_null_when_counter_wraps_run :
  fst (scara_segment_line target_50 joints_stretched false true start) <> None.
Proof.
  assert (Hw : (1 <= UINT_FAST16_BITS)%Z) by (vm_compute; discriminate).
  pose proof (init_returns_null_when_counter_wraps (A := arith32) (B := build3)
                target_50 joints_stretched false start Hw) as H.
  cbv zeta in H. intros E. apply H in E. vm_compute in E. discriminate E.
Defined.

(** Witness of [next_after_termination_wraps]: a rapid move is over
    after the call with [init] and two later calls; a third later call
    returns a waypoint and leaves the counter at 2^32 - 1. *)
Lemma next_after_termination_wraps_run :
  fst (run_next 2 (snd (scara_segment_line target_150 joints_home true true start)))
    !! 1%nat = Some None
  /\ iterations
       (snd (next (snd (run_next 2
          (snd (scara_segment_line target_150 joints_home true true start))))))
     = 4294967295%Z.
Proof.
  assert (Hw : (1 <= UINT_FAST16_BITS)%Z) by (vm_compute; discriminate).
  assert (Hit : iterations (snd (run_next 2
                  (snd (scara_segment_line target_150 joints_home true true start))))
                = 0%Z) by (vm_compute; reflexivity).
  assert (Hc : jog_cancel (snd (run_next 2
                  (snd (scara_segment_line target_150 joints_home true true start))))
               = false) by (vm_compute; reflexivity).
  pose proof (next_after_termination_wraps (A := arith32) (B := build3) _ Hw Hit Hc) as H.
  destruct H as (_ & H).
  split; [vm_compute; reflexivity|].
  etransitivity; [exact H|]. vm_compute. reflexivity.
Defined.

(** Witness of [set_machine_positions_by_axis]: with one step per
    degree on the first axis, two on the second and four on the third,
    the offset of the second axis is the pull-off of the third (-4
    steps) and that of the first axis is the pull-off of the second
    (-2 steps); the inverse transform of (-950, 0) is (180, 180)
    degrees. *)
Lemma set_machine_positions_by_axis_run :
  scara_limits_set_machine_positions settings_forced 4 [-950; 0; 7]%Z
  = [178; 356; 7]%Z.
Proof.
  assert (HN : (3 <= N_AXIS)%nat) by (vm_compute; lia).
  pose proof (set_machine_positions_by_axis (A := arith32) (B := build3)
                settings_forced 4 [-950; 0; 7]%Z HN eq_refl eq_refl) as H.
  cbv zeta in H. destruct H as (H0 & H1 & _ & H2 & _).
  apply list_eq. intros [|[|[|i]]].
  - etransitivity; [exact H0|]. vm_compute. reflexivity.
  - etransitivity; [exact H1|]. vm_compute. reflexivity.
  - etransitivity; [exact H2|]. reflexivity.
  - reflexivity.
Defined.

(** Witness of [single_axis_cycle_sets_nothing]: the cycle of the
    first axis alone. *)
Lemma single_axis_cycle_sets_nothing_run :
  scara_limits_set_machine_positions settings_forced
    (scara_limits_get_axis_mask X_AXIS) [-950; 0; 7]%Z
  = [-950; 0; 7]%Z.
Proof.
  apply (single_axis_cycle_sets_nothing (A := arith32) (B := build3)).
  vm_compute. discriminate.
Defined.

End MoreRuns.

(** * The call with [init] and the last waypoint, in every arithmetic *)
Section SessionEnds.
Context {A : Arith} {B : Build}.

Lemma from_cartesian_closed_form (target_q position_xy : vec) :
  (3 <= N_AXIS)%nat -> length target_q = N_AXIS -> length position_xy = N_AXIS ->
  unreachable (position_xy !!! A_MOTOR) (position_xy !!! B_MOTOR) = false ->
  let q := xy_to_q (position_xy !!! A_MOTOR) (position_xy !!! B_MOTOR) in
  buffer (scara_transform_from_cartesian target_q position_xy)
  = q1 q :: q2 q :: drop 2 position_xy
  /\ raised (scara_transform_from_cartesian target_q position_xy) = [].
Proof.
  intros HN Ht Hp Hreach q.
  pose proof (from_cartesian_reachable target_q position_xy HN Ht Hreach) as H.
  cbv zeta in H. destruct H as (_ & Hr & H0 & H1 & Hhi & Hlen).
  fold q in H0, H1. split; [|exact Hr].
  apply list_eq. intros [|[|i]]; [exact H0|exact H1|].
  rewrite lookup_two_then_drop.
  destruct (decide (S (S i) < N_AXIS)%nat) as [Hi|Hi].
  - rewrite Hhi by lia. symmetry. apply list_lookup_lookup_total_lt. lia.
  - rewrite !lookup_ge_None_2; [reflexivity|lia|lia].
Qed.



Lemma accumulated_steps (k : nat) :
  forall (s : statics) (n i : nat),
  do_segments s = true ->
  iterations s = (Z.of_nat n + 1)%Z ->
  (Z.of_nat n + 1 < 2 ^ UINT_FAST16_BITS)%Z ->
  (k < n)%nat ->
  length (segment_target s) = N_AXIS -> (i < N_AXIS)%nat ->
  segment_target (snd (run_next k s)) !! i
  = Some (Nat.iter k (fun v => (v + delta s !!! i)%flt) (segment_target s !!! i))
  /\ delta (snd (run_next k s)) = delta s.
Proof.
  induction k as [|k IH]; intros s n i Hds Hit Hfit Hk Hlen Hi.
  - cbn [run_next snd Nat.iter]. split; [|reflexivity].
    apply list_lookup_lookup_total_lt. lia.
  - assert (Hit3 : (3 <= iterations s < 2 ^ UINT_FAST16_BITS)%Z) by lia.
    pose proof (next_advance s Hds Hit3 Hlen) as H. cbv zeta in H.
    destruct H as (Hst & Hlen' & Hdl & _ & Hit' & Hds').
    destruct (run_next_S k s) as [_ E]. rewrite E.
    destruct n as [|n]; [lia|].
    assert (Hds1 : do_segments (snd (next s)) = true) by (rewrite Hds'; exact Hds).
    assert (Hit1 : iterations (snd (next s)) = (Z.of_nat n + 1)%Z) by lia.
    assert (Hfit1 : (Z.of_nat n + 1 < 2 ^ UINT_FAST16_BITS)%Z) by lia.
    assert (Hk1 : (k < n)%nat) by lia.
    destruct (IH (snd (next s)) n i Hds1 Hit1 Hfit1 Hk1 Hlen' Hi) as [IHa IHb].
    rewrite IHa, IHb, Hdl. split; [|reflexivity].
    rewrite (list_lookup_total_correct _ _ _ (Hst i Hi)).
    rewrite Nat.iter_succ_r. reflexivity.
Qed.

(** X13: the intermediate segment targets are an accumulated sum: while
    real segments remain after it, the [k]-th later call of a segmented
    move leaves, on every axis, the starting segment target with the
    stored step added [k] times, one rounded addition per call, and the
    step itself unchanged. *)
Theorem waypoints_accumulate_steps (s : statics) (k n i : nat) :
  do_segments s = true ->
  iterations s = (Z.of_nat n + 1)%Z ->
  (Z.of_nat n + 1 < 2 ^ UINT_FAST16_BITS)%Z ->
  (k < n)%nat ->
  length (segment_target s) = N_AXIS -> (i < N_AXIS)%nat ->
  segment_target (snd (run_next k s)) !! i
  = Some (Nat.iter k (fun v => (v + delta s !!! i)%flt) (segment_target s !!! i))
  /\ delta (snd (run_next k s)) = delta s.
Proof. exact (accumulated_steps k s n i). Qed.

End SessionEnds.

(** * The wrapper on the annulus, in binary32 *)
Section Binary32Wrapper.
Import B32.
Context {m : Libm} {B : Build}.

(** X14: in binary32, for every libm that behaves as C prescribes, the
    cartesian-to-joint wrapper accepts every position whose computed
    [x*x + y*y] is a number from [(l1-l2)^2] to [(l1+l2)^2]: it returns
    the buffer, raises no alarm, and both joint angles it writes are
    numbers. *)
Theorem from_cartesian_accepts_annulus (target_q position_xy : vec) :
  (3 <= N_AXIS)%nat -> length target_q = N_AXIS -> length position_xy = N_AXIS ->
  let px := position_xy !!! X_AXIS in
  let py := position_xy !!! Y_AXIS in
  let r := r_sq_of px py in
  libm_regular_at px py ->
  valid_binary prec emax px = true -> valid_binary prec emax py = true ->
  isnan r = false ->
  fgt r ((SCARA_L1 + SCARA_L2) * (SCARA_L1 + SCARA_L2))%flt = false ->
  fgt ((SCARA_L1 - SCARA_L2) * (SCARA_L1 - SCARA_L2))%flt r = false ->
  let res := scara_transform_from_cartesian target_q position_xy in
  returned_null res = false /\ raised res = []
  /\ buffer res = q1 (xy_to_q px py) :: q2 (xy_to_q px py) :: drop 2 position_xy
  /\ isnan (q1 (xy_to_q px py)) = false /\ isnan (q2 (xy_to_q px py)) = false.
Proof.
  intros HN Ht Hp px py r Hreg Hx Hy Hn Hhi Hlo res.
  pose proof (cos_q12_in_unit_range r (r_sq_valid px py Hx Hy) Hn Hhi Hlo) as Hin.
  assert (Hreach : unreachable px py = false).
  { destruct (unreachable px py) eqn:Hun; [|reflexivity].
    destruct (proj1 (unreachable_iff px py Hreg) Hun) as [H|H];
      fold r in H; congruence. }
  pose proof (from_cartesian_reachable target_q position_xy HN Ht Hreach) as H1.
  cbv zeta in H1. destruct H1 as (Hnull & Hr & _).
  pose proof (from_cartesian_closed_form target_q position_xy HN Ht Hp Hreach) as H2.
  cbv zeta in H2. destruct H2 as [Hb _].
  split; [exact Hnull|]. split; [exact Hr|]. split; [exact Hb|].
  unfold unreachable in Hreach. cbv zeta in Hreach.
  apply orb_false_iff in Hreach. exact Hreach.
Qed.

End Binary32Wrapper.

(** * Concrete runs for the round trip, the call with [init] and the
    last waypoint *)
Section SessionRuns.
Import B32 Example.
#[local] Existing Instance RefLibm.libm.
#[local] Existing Instance build3.









(** Witness of [waypoints_accumulate_steps]: after 10 later calls of the
    150 mm move the segment target is at x = 950 - 2 - ... - 2 = 930. *)
Lemma waypoints_accumulate_steps_run :
  segment_target
    (snd (run_next 10
            (snd (scara_segment_line target_150 joints_stretched false true start))))
    !! X_AXIS = Some (fl 930).
Proof.
  assert (Hds : do_segments
                  (snd (scara_segment_line (B := build3) target_150 joints_stretched
                          false true start)) = true) by (vm_compute; reflexivity).
  assert (Hit : iterations
                  (snd (scara_segment_line (B := build3) target_150 joints_stretched
                          false true start)) = (Z.of_nat 75 + 1)%Z)
    by (vm_compute; reflexivity).
  assert (Hfit : (Z.of_nat 75 + 1 < 2 ^ @UINT_FAST16_BITS build3)%Z)
    by (vm_compute; reflexivity).
  assert (Hk : (10 < 75)%nat) by lia.
  assert (Hi : (0 < @N_AXIS build3)%nat) by (vm_compute; lia).
  pose proof (waypoints_accumulate_steps (A := arith32) (B := build3) _ 10 75 0
                Hds Hit Hfit Hk eq_refl Hi) as H.
  destruct H as [H _].
  unfold X_AXIS. rewrite H. vm_compute. reflexivity.
Defined.

(** Witness of [from_cartesian_accepts_annulus]: the point (800, 0). *)
Lemma from_cartesian_accepts_annulus_run :
  raised (scara_transform_from_cartesian [fl 7; fl 8; fl 9] target_150) = []
  /\ returned_null (scara_transform_from_cartesian [fl 7; fl 8; fl 9] target_150) = false.
Proof.
  assert (HN : (3 <= @N_AXIS build3)%nat) by (vm_compute; lia).
  assert (Hreg : libm_regular_at (target_150 !!! X_AXIS) (target_150 !!! Y_AXIS))
    by (vm_compute; repeat split; intros; (reflexivity || discriminate)).
  assert (Hn : is_nan (r_sq_of (target_150 !!! X_AXIS) (target_150 !!! Y_AXIS)) = false)
    by (vm_compute; reflexivity).
  assert (Hhi : fgt (r_sq_of (target_150 !!! X_AXIS) (target_150 !!! Y_AXIS))
                  ((SCARA_L1 + SCARA_L2) * (SCARA_L1 + SCARA_L2))%flt = false)
    by (vm_compute; reflexivity).
  assert (Hlo : fgt ((SCARA_L1 - SCARA_L2) * (SCARA_L1 - SCARA_L2))%flt
                  (r_sq_of (target_150 !!! X_AXIS) (target_150 !!! Y_AXIS)) = false)
    by (vm_compute; reflexivity).
  pose proof (from_cartesian_accepts_annulus (m := RefLibm.libm) (B := build3)
                [fl 7; fl 8; fl 9] target_150 HN eq_refl eq_refl Hreg eq_refl eq_refl
                Hn Hhi Hlo) as H.
  cbv zeta in H. destruct H as (H1 & H2 & _).
  split; [exact H2|exact H1].
Defined.

End SessionRuns.
